(** * squeaknode: the squeak exchange engine, the connection manager and the
      sent-offers verifier, as a shallow embedding of the Python sources.

    - [squeaknode/core/squeak_core.py]       -> [Module SqueakCore]
    - [squeaknode/network/connection_manager.py] -> [Module ConnectionManager]
    - [squeaknode/node/sent_offers_verifier.py]  -> [Module SentOffersVerifier]

    Python [bytes] are lists of [Byte.byte], Python [int] is [Z], [str] is
    [string].  A method that talks to a collaborator (the Bitcoin client, the
    Lightning client, the database, the clock) is a function of the world it
    runs in: it returns a value or raises, and leaves a new world. *)

From Stdlib Require Import ZArith List String Ascii Bool Lia QArith.
From Stdlib.Strings Require Import Byte.
From Stdlib Require Import Sorted.
Import ListNotations.
Local Open Scope Z_scope.

(* ================================================================== *)
(** * Python values *)

Definition bytes := list byte.

Definition bytes_eq_dec : forall a b : bytes, {a = b} + {a <> b} :=
  list_eq_dec Byte.byte_eq_dec.

(** [a == b] on [bytes]. *)
Definition bytes_eqb (a b : bytes) : bool :=
  if bytes_eq_dec a b then true else false.

Definition byte_to_Z (b : byte) : Z := Z.of_N (Byte.to_N b).

(** The byte of value [z mod 256]. *)
Definition byte_of_Z (z : Z) : byte :=
  match Byte.of_N (Z.to_N (z mod 256)) with
  | Some b => b
  | None => x00
  end.

(** [int.from_bytes(bs, "big")]. *)
Definition int_from_bytes (bs : bytes) : Z :=
  fold_left (fun acc b => acc * 256 + byte_to_Z b) bs 0.

(** The [n] low-order base-256 digits of [z], most significant first:
    [z.to_bytes(n, "big")] for [0 <= z < 256 ^ n]. *)
Fixpoint int_to_bytes (n : nat) (z : Z) : bytes :=
  match n with
  | O => []
  | S k => int_to_bytes k (z / 256) ++ [byte_of_Z z]
  end.

Definition hex_digit (n : Z) : ascii :=
  if n <? 10 then ascii_of_N (Z.to_N (48 + n)) else ascii_of_N (Z.to_N (87 + n)).

(** [bs.hex()]: two lower-case hexadecimal digits per byte. *)
Fixpoint hex (bs : bytes) : string :=
  match bs with
  | [] => EmptyString
  | b :: rest =>
      String (hex_digit (byte_to_Z b / 16))
        (String (hex_digit (byte_to_Z b mod 16)) (hex rest))
  end.

Definition hex_value (c : ascii) : option Z :=
  let n := Z.of_N (N_of_ascii c) in
  if (48 <=? n) && (n <=? 57) then Some (n - 48)
  else if (97 <=? n) && (n <=? 102) then Some (n - 87)
  else if (65 <=? n) && (n <=? 70) then Some (n - 55)
  else None.

(** ASCII whitespace: space, \t, \n, \v, \f, \r. *)
Definition is_ascii_space (c : ascii) : bool :=
  let n := Z.of_N (N_of_ascii c) in
  (n =? 32) || ((9 <=? n) && (n <=? 13)).

(** [bytes.fromhex(s)]: pairs of hexadecimal digits, ASCII whitespace allowed
    between the pairs; [None] stands for its [ValueError]. *)
Fixpoint fromhex (s : string) : option bytes :=
  match s with
  | EmptyString => Some []
  | String c rest =>
      if is_ascii_space c then fromhex rest
      else
        match rest with
        | EmptyString => None
        | String d rest' =>
            match hex_value c, hex_value d, fromhex rest' with
            | Some hi, Some lo, Some bs => Some (byte_of_Z (16 * hi + lo) :: bs)
            | _, _, _ => None
            end
        end
  end.

(** [s.split(sep)] for a one-character separator. *)
Fixpoint split (sep : ascii) (s : string) : list string :=
  match s with
  | EmptyString => [EmptyString]
  | String c rest =>
      if Ascii.eqb c sep then EmptyString :: split sep rest
      else
        match split sep rest with
        | [] => [String c EmptyString]
        | w :: ws => String c w :: ws
        end
  end.

(** [int(x)] for a float [x], here a rational: truncation towards zero. *)
Definition int_of_float (x : Q) : Z := Z.quot (Qnum x) (Zpos (Qden x)).

(** [s.count(c)] for a one-character [c]. *)
Fixpoint count_char (c : ascii) (s : string) : nat :=
  match s with
  | EmptyString => O
  | String d rest =>
      if Ascii.eqb d c then S (count_char c rest) else count_char c rest
  end.

(* ================================================================== *)
(** * squeaknode.core.util: the scalar tweaks *)

Module Util.

(** The order of the secp256k1 group. *)
Definition SECP256K1_ORDER : Z :=
  0xFFFFFFFFFFFFFFFFFFFFFFFFFFFFFFFEBAAEDCE6AF48A03BBFD25E8CD0364141.

Definition DATA_KEY_LENGTH : nat := 32.

(** Modelled from the spec: [add_tweak] of squeaknode/core/util.py, which is
    not among the sources.  Section 4.1: on 32-byte big-endian scalars,
    "scalar addition modulo the curve order". *)
Definition add_tweak (n tweak : bytes) : bytes :=
  int_to_bytes DATA_KEY_LENGTH
    ((int_from_bytes n + int_from_bytes tweak) mod SECP256K1_ORDER).

(** Modelled from the spec: [subtract_tweak] of squeaknode/core/util.py, which
    is not among the sources.  Section 4.1: "scalar subtraction", in the same
    group of scalars. *)
Definition subtract_tweak (n tweak : bytes) : bytes :=
  int_to_bytes DATA_KEY_LENGTH
    ((int_from_bytes n - int_from_bytes tweak) mod SECP256K1_ORDER).

(** A 32-byte scalar below the curve order. *)
Definition in_range (a : bytes) : Prop :=
  List.length a = DATA_KEY_LENGTH /\ int_from_bytes a < SECP256K1_ORDER.

End Util.

(* ================================================================== *)
(** * Exceptions, results and computations in a world *)

(** [grpc.StatusCode]. *)
Inductive StatusCode : Set :=
| OK | CANCELLED | UNKNOWN | INVALID_ARGUMENT | DEADLINE_EXCEEDED | NOT_FOUND
| ALREADY_EXISTS | PERMISSION_DENIED | RESOURCE_EXHAUSTED | FAILED_PRECONDITION
| ABORTED | OUT_OF_RANGE | UNIMPLEMENTED | INTERNAL | UNAVAILABLE | DATA_LOSS
| UNAUTHENTICATED.

Definition StatusCode_eqb (a b : StatusCode) : bool :=
  match a, b with
  | OK, OK | CANCELLED, CANCELLED | UNKNOWN, UNKNOWN
  | INVALID_ARGUMENT, INVALID_ARGUMENT | DEADLINE_EXCEEDED, DEADLINE_EXCEEDED
  | NOT_FOUND, NOT_FOUND | ALREADY_EXISTS, ALREADY_EXISTS
  | PERMISSION_DENIED, PERMISSION_DENIED
  | RESOURCE_EXHAUSTED, RESOURCE_EXHAUSTED
  | FAILED_PRECONDITION, FAILED_PRECONDITION | ABORTED, ABORTED
  | OUT_OF_RANGE, OUT_OF_RANGE | UNIMPLEMENTED, UNIMPLEMENTED
  | INTERNAL, INTERNAL | UNAVAILABLE, UNAVAILABLE | DATA_LOSS, DATA_LOSS
  | UNAUTHENTICATED, UNAUTHENTICATED => true
  | _, _ => false
  end.

(** The exceptions the three modules raise or let through.  The core raises
    plain [Exception]s told apart by their message; each gets the name the
    specification gives its kind:
    - [ProfileNotSigning]: "Can't make squeak with a contact profile.";
    - [OfferHashMismatch]: "Squeak hash in offer {!r} does not match squeak
      hash {!r}.", with the two hashes;
    - [PaymentFailed]: "Payment failed with error: {}", with the error. *)
Inductive exn : Type :=
| ProfileNotSigning
| OfferHashMismatch (offer_hash squeak_hash : bytes)
| PaymentFailed (payment_error : string)
| InvoiceSubscriptionError
| DuplicateNonceError
| DuplicatePeerError
| MissingPeerError
| RpcError (code : StatusCode)
| ValueError
| AttributeError
| KeyError
| OtherError (msg : string).

Inductive result (A : Type) : Type :=
| Ok (a : A)
| Raise (e : exn).
Arguments Ok {A} a.
Arguments Raise {A} e.

(** A computation in a world of type [W]. *)
Definition M (W A : Type) : Type := W -> result A * W.

Definition ret {W A} (a : A) : M W A := fun w => (Ok a, w).

Definition raise {W A} (e : exn) : M W A := fun w => (Raise e, w).

Definition bind {W A B} (m : M W A) (k : A -> M W B) : M W B :=
  fun w =>
    match m w with
    | (Ok a, w') => k a w'
    | (Raise e, w') => (Raise e, w')
    end.

(** A pure step that may raise. *)
Definition lift {W A} (r : result A) : M W A := fun w => (r, w).

(** [try: m  except: h] with a bare [except]. *)
Definition try_except {W A} (m : M W A) (h : M W A) : M W A :=
  fun w =>
    match m w with
    | (Ok a, w') => (Ok a, w')
    | (Raise _, w') => h w'
    end.

(** [try: m  except Exception as e: h(e)]. *)
Definition try_catch {W A} (m : M W A) (h : exn -> M W A) : M W A :=
  fun w =>
    match m w with
    | (Ok a, w') => (Ok a, w')
    | (Raise e, w') => h e w'
    end.

Declare Scope world_scope.
Delimit Scope world_scope with world.
Notation "x <- m ;; k" := (bind m (fun x => k))
  (at level 61, m at next level, right associativity) : world_scope.
Notation "m ;;; k" := (bind m (fun _ => k))
  (at level 61, right associativity) : world_scope.

(* ================================================================== *)
(** * The records of squeaknode.core *)

Module PeerAddress.
Record t : Type := mk { host : string; port : Z }.
Definition eqb (a b : t) : bool :=
  String.eqb (host a) (host b) && (port a =? port b).
End PeerAddress.

Module LightningAddressHostPort.
Record t : Type := mk { host : string; port : Z }.
End LightningAddressHostPort.

Module SqueakProfile.
Record t : Type := mk {
  profile_id : option Z;
  profile_name : string;
  address : string;
  private_key : option bytes;
  following : bool;
  use_custom_price : bool;
  custom_price_msat : Z;
  profile_image : option bytes }.
End SqueakProfile.

Module SentOffer.
Record t : Type := mk {
  sent_offer_id : option Z;
  squeak_hash : bytes;
  payment_hash : bytes;
  secret_key : bytes;
  nonce : bytes;
  price_msat : Z;
  payment_request : string;
  invoice_time : Z;
  invoice_expiry : Z;
  peer_address : PeerAddress.t }.
End SentOffer.

Module Offer.
Record t : Type := mk {
  squeak_hash : bytes;
  nonce : bytes;
  payment_request : string;
  host : string;
  port : Z }.
End Offer.

Module ReceivedOffer.
Record t : Type := mk {
  received_offer_id : option Z;
  squeak_hash : bytes;
  price_msat : Z;
  payment_hash : bytes;
  nonce : bytes;
  payment_point : bytes;
  invoice_timestamp : Z;
  invoice_expiry : Z;
  payment_request : string;
  destination : string;
  lightning_address : LightningAddressHostPort.t;
  peer_address : PeerAddress.t }.
End ReceivedOffer.

Module SentPayment.
Record t : Type := mk {
  sent_payment_id : option Z;
  created_time_ms : option Z;
  peer_address : PeerAddress.t;
  squeak_hash : bytes;
  payment_hash : bytes;
  secret_key : bytes;
  price_msat : Z;
  node_pubkey : string;
  valid : bool }.
End SentPayment.

Module ReceivedPayment.
Record t : Type := mk {
  received_payment_id : option Z;
  created_time_ms : option Z;
  squeak_hash : bytes;
  payment_hash : bytes;
  price_msat : Z;
  settle_index : Z;
  peer_address : PeerAddress.t }.
End ReceivedPayment.

(* ================================================================== *)
(** * What the collaborators answer *)

Module BlockInfo.
Record t : Type := mk {
  block_height : Z;
  block_hash : bytes;
  block_header : bytes }.
End BlockInfo.

Module AddInvoiceResponse.
Record t : Type := mk { r_hash : bytes; payment_request : string }.
End AddInvoiceResponse.

Module Invoice.
Record t : Type := mk {
  r_hash : bytes;
  creation_date : Z;
  expiry : Z;
  settled : bool;
  settle_index : Z }.
End Invoice.

Module PayReq.
Record t : Type := mk {
  payment_hash : string;
  num_msat : Z;
  destination : string;
  timestamp : Z;
  expiry : Z }.
End PayReq.

Module SendResponse.
Record t : Type := mk { payment_preimage : bytes; payment_error : string }.
End SendResponse.

Module GetInfoResponse.
Record t : Type := mk { uris : list string }.
End GetInfoResponse.

(** The iterator [subscribe_invoices] returns, as far as a consumer can see
    it: the invoices it delivers, then how it ends.  [cancel()] on the gRPC
    call makes the pending read raise [RpcError] with code [CANCELLED]. *)
Module InvoiceStream.
Inductive ending : Type :=
| Exhausted
| Failed (e : exn).
Record t : Type := mk { invoices : list Invoice.t; end_ : ending }.
End InvoiceStream.

(* ================================================================== *)
(** * The collaborators *)

(** The python-squeak library: squeaks, signing keys and the payment point of
    a scalar.  [get_hash] is squeaknode.core.util's digest of a squeak. *)
Class SqueakLib : Type := {
  CSqueak : Type;
  CSigningKey : Type;
  paymentPoint : CSqueak -> bytes;
  get_hash : CSqueak -> bytes;
  new_CSigningKey : string -> result CSigningKey;
  MakeSqueakFromStr :
    CSigningKey -> string -> Z -> bytes -> Z -> option bytes ->
    result (CSqueak * bytes);
  payment_point_bytes_from_scalar_bytes : bytes -> bytes }.

(** Built-ins of the language whose details no method here depends on:
    [bytes.decode()] and [int(str)]. *)
Class Builtins : Type := {
  bytes_decode : bytes -> result string;
  int_of_str : string -> result Z }.

(** The process around the code: [time.time()], [time.sleep(s)] and the
    random source behind [generate_tweak()]. *)
Class Runtime (W : Type) : Type := {
  time_time : W -> Q;
  time_sleep : Z -> W -> W;
  generate_tweak : W -> bytes * W }.

Class BitcoinClient (W : Type) : Type := {
  get_best_block_info : M W BlockInfo.t }.

Class LightningClient (W : Type) : Type := {
  add_invoice : bytes -> Z -> M W AddInvoiceResponse.t;
  lookup_invoice : string -> M W Invoice.t;
  decode_pay_req : string -> M W PayReq.t;
  pay_invoice_sync : string -> M W SendResponse.t;
  get_info : M W GetInfoResponse.t;
  subscribe_invoices : Z -> M W InvoiceStream.t }.

(** The Bitcoin client's lookup of a block by its height. *)
Class BlockLookup (W : Type) : Type := {
  get_block_info_by_height : Z -> M W BlockInfo.t }.

(** The block anchor of a squeak, as python-squeak stores it, and
    squeaknode.bitcoin.util's [parse_block_header]. *)
Class BlockAnchor {lib : SqueakLib} : Type := {
  CBlockHeader : Type;
  nBlockHeight : CSqueak -> Z;
  hashBlock : CSqueak -> bytes;
  parse_block_header : bytes -> result CBlockHeader }.

(** What the Lightning network does for a sale, between the seller's client
    and the buyer's: a payment request that [add_invoice] issued for a
    preimage, when [pay_invoice_sync] pays it and a preimage comes back, gives
    back that preimage. *)
Definition settlement_reveals_preimage {W : Type}
    (seller buyer : LightningClient W) : Prop :=
  forall preimage amount ws ws' resp wb wb' payment,
    add_invoice (LightningClient := seller) preimage amount ws
    = (Ok resp, ws') ->
    pay_invoice_sync (LightningClient := buyer)
      (AddInvoiceResponse.payment_request resp) wb = (Ok payment, wb') ->
    SendResponse.payment_preimage payment <> [] ->
    SendResponse.payment_preimage payment = preimage.

(* ================================================================== *)
(** * squeaknode/core/squeak_core.py *)

Module SqueakCore.
Section Methods.
Context {W : Type} {lib : SqueakLib} {py : Builtins} {rt : Runtime W}.
Context {bitcoin_client : BitcoinClient W}.
Context {lightning_client : LightningClient W}.
Local Open Scope world_scope.

Definition make_squeak (signing_profile : SqueakProfile.t)
    (content_str : string) (replyto_hash : option bytes)
  : M W (CSqueak * bytes) :=
  match SqueakProfile.private_key signing_profile with
  | None => raise ProfileNotSigning
  | Some private_key =>
      signing_key_str <- lift (bytes_decode private_key) ;;
      signing_key <- lift (new_CSigningKey signing_key_str) ;;
      block_info <- get_best_block_info ;;
      let block_height := BlockInfo.block_height block_info in
      let block_hash := BlockInfo.block_hash block_info in
      timestamp <- (fun w => (Ok (int_of_float (time_time w)), w)) ;;
      lift (MakeSqueakFromStr signing_key content_str block_height block_hash
              timestamp replyto_hash)
  end.

Definition get_best_block_height : M W Z :=
  block_info <- get_best_block_info ;;
  ret (BlockInfo.block_height block_info).

Definition create_offer (squeak : CSqueak) (secret_key : bytes)
    (peer_address : PeerAddress.t) (price_msat : Z) : M W SentOffer.t :=
  let squeak_hash := get_hash squeak in
  nonce <- (fun w => let (t, w') := generate_tweak w in (Ok t, w')) ;;
  let preimage := Util.add_tweak secret_key nonce in
  add_invoice_response <- add_invoice preimage price_msat ;;
  let payment_hash := AddInvoiceResponse.r_hash add_invoice_response in
  let invoice_payment_request :=
    AddInvoiceResponse.payment_request add_invoice_response in
  lookup_invoice_response <- lookup_invoice (hex payment_hash) ;;
  let invoice_time := Invoice.creation_date lookup_invoice_response in
  let invoice_expiry := Invoice.expiry lookup_invoice_response in
  ret {| SentOffer.sent_offer_id := None;
         SentOffer.squeak_hash := squeak_hash;
         SentOffer.payment_hash := payment_hash;
         SentOffer.secret_key := preimage;
         SentOffer.nonce := nonce;
         SentOffer.price_msat := price_msat;
         SentOffer.payment_request := invoice_payment_request;
         SentOffer.invoice_time := invoice_time;
         SentOffer.invoice_expiry := invoice_expiry;
         SentOffer.peer_address := peer_address |}.

(** The [for] loop returns inside its first iteration: only [uris[0]] is
    looked at.  Unpacking a [split] of the wrong length is a [ValueError]. *)
Definition get_lnd_external_address
  : M W (option LightningAddressHostPort.t) :=
  info <- get_info ;;
  match GetInfoResponse.uris info with
  | [] => ret None
  | uri :: _ =>
      match split "@" uri with
      | [pubkey; address] =>
          match split ":" address with
          | [host; port_str] =>
              port <- lift (int_of_str port_str) ;;
              ret (Some {| LightningAddressHostPort.host := host;
                           LightningAddressHostPort.port := port |})
          | _ => raise ValueError
          end
      | _ => raise ValueError
      end
  end.

Definition package_offer (sent_offer : SentOffer.t)
    (lnd_external_address : option LightningAddressHostPort.t)
  : M W Offer.t :=
  lnd_external_address <-
    match lnd_external_address with
    | None => get_lnd_external_address
    | Some a => ret (Some a)
    end ;;
  ret {| Offer.squeak_hash := SentOffer.squeak_hash sent_offer;
         Offer.nonce := SentOffer.nonce sent_offer;
         Offer.payment_request := SentOffer.payment_request sent_offer;
         Offer.host :=
           match lnd_external_address with
           | Some a => LightningAddressHostPort.host a
           | None => EmptyString
           end;
         Offer.port :=
           match lnd_external_address with
           | Some a => LightningAddressHostPort.port a
           | None => 0
           end |}.

(** [a or b] on strings: [a] unless it is empty. *)
Definition str_or (a b : string) : string :=
  match a with
  | EmptyString => b
  | _ => a
  end.

Definition unpack_offer (squeak : CSqueak) (offer : Offer.t)
    (peer_address : PeerAddress.t) : M W ReceivedOffer.t :=
  let squeak_hash := get_hash squeak in
  if negb (bytes_eqb squeak_hash (Offer.squeak_hash offer)) then
    raise (OfferHashMismatch (Offer.squeak_hash offer) squeak_hash)
  else
    pay_req <- decode_pay_req (Offer.payment_request offer) ;;
    let squeak_payment_point := paymentPoint squeak in
    payment_hash <-
      lift (match fromhex (PayReq.payment_hash pay_req) with
            | Some b => Ok b
            | None => Raise ValueError
            end) ;;
    let price_msat := PayReq.num_msat pay_req in
    let destination := PayReq.destination pay_req in
    let invoice_timestamp := PayReq.timestamp pay_req in
    let invoice_expiry := PayReq.expiry pay_req in
    let lightning_address :=
      {| LightningAddressHostPort.host :=
           str_or (Offer.host offer) (PeerAddress.host peer_address);
         LightningAddressHostPort.port := Offer.port offer |} in
    ret {| ReceivedOffer.received_offer_id := None;
           ReceivedOffer.squeak_hash := squeak_hash;
           ReceivedOffer.price_msat := price_msat;
           ReceivedOffer.payment_hash := payment_hash;
           ReceivedOffer.nonce := Offer.nonce offer;
           ReceivedOffer.payment_point := squeak_payment_point;
           ReceivedOffer.invoice_timestamp := invoice_timestamp;
           ReceivedOffer.invoice_expiry := invoice_expiry;
           ReceivedOffer.payment_request := Offer.payment_request offer;
           ReceivedOffer.destination := destination;
           ReceivedOffer.lightning_address := lightning_address;
           ReceivedOffer.peer_address := peer_address |}.

Definition pay_offer (received_offer : ReceivedOffer.t) : M W SentPayment.t :=
  payment <- pay_invoice_sync (ReceivedOffer.payment_request received_offer) ;;
  let preimage := SendResponse.payment_preimage payment in
  match preimage with
  | [] => raise (PaymentFailed (SendResponse.payment_error payment))
  | _ :: _ =>
      let nonce := ReceivedOffer.nonce received_offer in
      let secret_key := Util.subtract_tweak preimage nonce in
      let point := payment_point_bytes_from_scalar_bytes secret_key in
      let valid := bytes_eqb point (ReceivedOffer.payment_point received_offer) in
      let peer_address :=
        {| PeerAddress.host :=
             PeerAddress.host (ReceivedOffer.peer_address received_offer);
           PeerAddress.port :=
             PeerAddress.port (ReceivedOffer.peer_address received_offer) |} in
      ret {| SentPayment.sent_payment_id := None;
             SentPayment.created_time_ms := None;
             SentPayment.peer_address := peer_address;
             SentPayment.squeak_hash := ReceivedOffer.squeak_hash received_offer;
             SentPayment.payment_hash := ReceivedOffer.payment_hash received_offer;
             SentPayment.secret_key := secret_key;
             SentPayment.price_msat := ReceivedOffer.price_msat received_offer;
             SentPayment.node_pubkey := ReceivedOffer.destination received_offer;
             SentPayment.valid := valid |}
  end.

Context {chain : BlockLookup W} {anchor : BlockAnchor}.

(** The second [raise Exception] of the core, "Block hash incorrect.". *)
Definition get_block_header (squeak : CSqueak) : M W CBlockHeader :=
  block_info <- get_block_info_by_height (nBlockHeight squeak) ;;
  if negb (bytes_eqb (hashBlock squeak) (BlockInfo.block_hash block_info))
  then raise (OtherError "Block hash incorrect.")
  else lift (parse_block_header (BlockInfo.block_header block_info)).

End Methods.

(** ** The generator [get_payment_stream] of [get_received_payments] *)

(** Between two [next()] calls the generator is suspended in its [for] loop,
    holding the lookup function it closed over and the rest of the invoice
    stream, or it has finished. *)
Inductive generator : Type :=
| Suspended (get_sent_offer_fn : bytes -> SentOffer.t)
    (pending : list Invoice.t) (end_ : InvoiceStream.ending)
| Finished.

(** What one [next()] gives its caller. *)
Inductive step : Type :=
| Yield (payment : ReceivedPayment.t)
| StopIteration
| Throw (e : exn).

Definition received_payment (get_sent_offer_fn : bytes -> SentOffer.t)
    (invoice : Invoice.t) : ReceivedPayment.t :=
  let payment_hash := Invoice.r_hash invoice in
  let settle_index := Invoice.settle_index invoice in
  let sent_offer := get_sent_offer_fn payment_hash in
  {| ReceivedPayment.received_payment_id := None;
     ReceivedPayment.created_time_ms := None;
     ReceivedPayment.squeak_hash := SentOffer.squeak_hash sent_offer;
     ReceivedPayment.payment_hash := SentOffer.payment_hash sent_offer;
     ReceivedPayment.price_msat := SentOffer.price_msat sent_offer;
     ReceivedPayment.settle_index := settle_index;
     ReceivedPayment.peer_address := SentOffer.peer_address sent_offer |}.

(** Run the loop up to its next [yield], its end, or an exception.  Only a
    [grpc.RpcError] is caught; one with a code other than [CANCELLED] is
    replaced by [InvoiceSubscriptionError]. *)
Fixpoint resume (get_sent_offer_fn : bytes -> SentOffer.t)
    (pending : list Invoice.t) (end_ : InvoiceStream.ending)
  : step * generator :=
  match pending with
  | invoice :: rest =>
      if Invoice.settled invoice
      then (Yield (received_payment get_sent_offer_fn invoice),
            Suspended get_sent_offer_fn rest end_)
      else resume get_sent_offer_fn rest end_
  | [] =>
      match end_ with
      | InvoiceStream.Exhausted => (StopIteration, Finished)
      | InvoiceStream.Failed (RpcError code) =>
          if negb (StatusCode_eqb code CANCELLED)
          then (Throw InvoiceSubscriptionError, Finished)
          else (StopIteration, Finished)
      | InvoiceStream.Failed e => (Throw e, Finished)
      end
  end.

Definition next (g : generator) : step * generator :=
  match g with
  | Suspended get_sent_offer_fn pending end_ =>
      resume get_sent_offer_fn pending end_
  | Finished => (StopIteration, Finished)
  end.

(** How a consumer's [for payment in result_stream] ends. *)
Inductive finish : Type :=
| Returned
| Thrown (e : exn).

(** A consumer that takes at most [fuel] steps: what it was given, and how the
    iteration ended if it did. *)
Fixpoint consume (fuel : nat) (g : generator)
  : list ReceivedPayment.t * option finish :=
  match fuel with
  | O => ([], None)
  | S k =>
      match next g with
      | (Yield payment, g') =>
          let (payments, fin) := consume k g' in (payment :: payments, fin)
      | (StopIteration, _) => ([], Some Returned)
      | (Throw e, _) => ([], Some (Thrown e))
      end
  end.

(** The [result_stream] of the [ReceivedPaymentsStream] that is returned: the
    generator, not yet started.  Its [cancel_fn] cancels the gRPC call, which
    the invoice stream shows as its ending. *)
Definition get_received_payments {W : Type}
    {lightning_client : LightningClient W}
    (latest_settle_index : Z) (get_sent_offer_fn : bytes -> SentOffer.t)
  : M W generator :=
  bind (subscribe_invoices latest_settle_index)
    (fun invoice_stream =>
       ret (Suspended get_sent_offer_fn
              (InvoiceStream.invoices invoice_stream)
              (InvoiceStream.end_ invoice_stream))).

End SqueakCore.

(* ================================================================== *)
(** * squeaknode/network/connection_manager.py *)

(** The version message of the handshake, as far as the manager reads it. *)
Module Version.
Record t : Type := mk { nNonce : Z }.
End Version.

(** A peer connection, as far as the manager reads it: [local_version] is
    [None] until the local version message has been made. *)
Module Peer.
Record t : Type := mk {
  address : PeerAddress.t;
  local_version : option Version.t;
  remote_version : Z }.
End Peer.

(** [peer.close()], which belongs to the connection layer. *)
Class PeerConnection (W : Type) : Type := {
  close : Peer.t -> M W unit }.

Module ConnectionManager.

(** [self._peers] is a [dict]: unique keys, kept in insertion order. *)
Definition dict : Type := list (PeerAddress.t * Peer.t).

Record t : Type := mk {
  _peers : dict;
  peers_changed_callback : option (list Peer.t -> result unit) }.

(** [ConnectionManager()]. *)
Definition init : t := {| _peers := []; peers_changed_callback := None |}.

(** [d[k] = v]: the value of an existing key is replaced where it stands, a
    new key goes to the end. *)
Fixpoint dict_set (k : PeerAddress.t) (v : Peer.t) (d : dict) : dict :=
  match d with
  | [] => [(k, v)]
  | (k', v') :: rest =>
      if PeerAddress.eqb k k' then (k', v) :: rest
      else (k', v') :: dict_set k v rest
  end.

(** [del d[k]]; [None] stands for its [KeyError]. *)
Fixpoint dict_del (k : PeerAddress.t) (d : dict) : option dict :=
  match d with
  | [] => None
  | (k', v') :: rest =>
      if PeerAddress.eqb k k' then Some rest
      else option_map (cons (k', v')) (dict_del k rest)
  end.

(** [k in d]. *)
Definition dict_contains (k : PeerAddress.t) (d : dict) : bool :=
  existsb (fun kv => PeerAddress.eqb k (fst kv)) d.

Definition peers (self : t) : list Peer.t := map snd (_peers self).

Definition has_connection (self : t) (address : PeerAddress.t) : bool :=
  dict_contains address (_peers self).

(** Logging apart, [on_peers_changed] does nothing without a callback; with
    one it calls [self.get_peers()], a method the class does not have. *)
Definition on_peers_changed : M t unit :=
  fun self =>
    match peers_changed_callback self with
    | Some _ => (Raise AttributeError, self)
    | None => (Ok tt, self)
    end.

Definition listen_peers_changed (callback : list Peer.t -> result unit)
  : M t unit :=
  fun self =>
    (Ok tt, {| _peers := _peers self; peers_changed_callback := Some callback |}).

(** The loop of [_is_duplicate_nonce] over [self.peers]. *)
Fixpoint is_duplicate_nonce_loop (peer : Peer.t) (others : list Peer.t) : bool :=
  match others with
  | [] => false
  | other_peer :: rest =>
      match Peer.local_version other_peer with
      | Some local_version =>
          if Peer.remote_version peer =? Version.nNonce local_version
          then true
          else is_duplicate_nonce_loop peer rest
      | None => is_duplicate_nonce_loop peer rest
      end
  end.

Definition _is_duplicate_nonce (self : t) (peer : Peer.t) : bool :=
  is_duplicate_nonce_loop peer (peers self).

Definition add_peer (peer : Peer.t) : M t unit :=
  fun self =>
    if _is_duplicate_nonce self peer then (Raise DuplicateNonceError, self)
    else if has_connection self (Peer.address peer)
    then (Raise DuplicatePeerError, self)
    else
      on_peers_changed
        {| _peers := dict_set (Peer.address peer) peer (_peers self);
           peers_changed_callback := peers_changed_callback self |}.

Definition remove_peer (peer : Peer.t) : M t unit :=
  fun self =>
    if negb (has_connection self (Peer.address peer))
    then (Raise MissingPeerError, self)
    else
      match dict_del (Peer.address peer) (_peers self) with
      | None => (Raise KeyError, self)
      | Some d =>
          on_peers_changed
            {| _peers := d;
               peers_changed_callback := peers_changed_callback self |}
      end.

Definition get_peer (self : t) (address : PeerAddress.t) : option Peer.t :=
  option_map snd
    (find (fun kv => PeerAddress.eqb address (fst kv)) (_peers self)).

(** A call of the manager, for sequences of calls. *)
Inductive call : Type :=
| AddPeer (peer : Peer.t)
| RemovePeer (peer : Peer.t).

Definition run_call (c : call) : M t unit :=
  match c with
  | AddPeer peer => add_peer peer
  | RemovePeer peer => remove_peer peer
  end.

(** The manager after a sequence of calls, each of which may have raised. *)
Definition run_calls (calls : list call) (self : t) : t :=
  fold_left (fun m c => snd (run_call c m)) calls self.

(** The version-nonce relation of [_is_duplicate_nonce]: [q]'s local version
    carries the nonce that [p] reports as its remote version. *)
Definition nonce_related (q p : Peer.t) : Prop :=
  exists v, Peer.local_version q = Some v /\
            Peer.remote_version p = Version.nNonce v.

Section Closing.
Context {W : Type} {connection : PeerConnection W}.

(** Neither method writes [self._peers]: closing is the peer's business. *)
Definition stop_connection (self : t) (address : PeerAddress.t) : M W unit :=
  match get_peer self address with
  | Some peer => close peer
  | None => ret tt
  end.

(** [for peer in peers: peer.close()]. *)
Fixpoint close_each (peers : list Peer.t) : M W unit :=
  match peers with
  | [] => ret tt
  | peer :: rest => bind (close peer) (fun _ => close_each rest)
  end.

Definition stop_all_connections (self : t) : M W unit :=
  close_each (peers self).

End Closing.

(** What holds of the manager between calls: no callback was registered,
    every entry is filed under its peer's address, the keys are distinct, and
    no entry reports as its remote version the nonce of an entry that was
    already there when it came. *)
Record consistent (self : t) : Prop := {
  no_callback : peers_changed_callback self = None;
  keyed_by_address :
    Forall (fun kv => fst kv = Peer.address (snd kv)) (_peers self);
  distinct_keys : NoDup (map fst (_peers self));
  no_echo :
    ForallOrdPairs (fun q p => ~ nonce_related q p) (peers self) }.

End ConnectionManager.

(* ================================================================== *)
(** * squeaknode/node/sent_offers_verifier.py *)

(** The row [get_sent_offer_by_preimage_hash] returns, as far as it is read. *)
Module SentOfferRow.
Record t : Type := mk {
  squeak_hash : bytes;
  preimage_hash : string;
  price_msat : Z }.
End SentOfferRow.

(** [squeaknode.server.received_payment.ReceivedPayment]. *)
Module ServerReceivedPayment.
Record t : Type := mk {
  received_payment_id : option Z;
  created : option Z;
  squeak_hash : bytes;
  preimage_hash : string;
  price_msat : Z;
  settle_index : Z }.
End ServerReceivedPayment.

Class SqueakDb (W : Type) : Type := {
  get_latest_settle_index : M W (option Z);
  get_sent_offer_by_preimage_hash : string -> M W (option SentOfferRow.t);
  insert_received_payment : ServerReceivedPayment.t -> M W unit }.

Module SentOffersVerifier.

Definition LND_CONNECT_RETRY_S : Z := 10.

Section Methods.
Context {W : Type} {rt : Runtime W}.
Context {squeak_db : SqueakDb W} {lightning_client : LightningClient W}.
Local Open Scope world_scope.

Definition _get_latest_settle_index : M W (option Z) :=
  get_latest_settle_index.

(** Reading a field of the [None] that a missing row gives is an
    [AttributeError]. *)
Definition _record_payment (preimage_hash : string) (settle_index : Z)
  : M W unit :=
  sent_offer <- get_sent_offer_by_preimage_hash preimage_hash ;;
  match sent_offer with
  | None => raise AttributeError
  | Some sent_offer =>
      let received_payment :=
        {| ServerReceivedPayment.received_payment_id := None;
           ServerReceivedPayment.created := None;
           ServerReceivedPayment.squeak_hash :=
             SentOfferRow.squeak_hash sent_offer;
           ServerReceivedPayment.preimage_hash :=
             SentOfferRow.preimage_hash sent_offer;
           ServerReceivedPayment.price_msat :=
             SentOfferRow.price_msat sent_offer;
           ServerReceivedPayment.settle_index := settle_index |} in
      insert_received_payment received_payment
  end.

Definition verify_sent_offer (invoice : Invoice.t) : M W unit :=
  if Invoice.settled invoice then
    let preimage_hash := hex (Invoice.r_hash invoice) in
    let settle_index := Invoice.settle_index invoice in
    _record_payment preimage_hash settle_index
  else ret tt.

(** [for invoice in stream: self.verify_sent_offer(invoice)]. *)
Fixpoint for_each_invoice (pending : list Invoice.t)
    (end_ : InvoiceStream.ending) : M W unit :=
  match pending with
  | invoice :: rest =>
      verify_sent_offer invoice ;;; for_each_invoice rest end_
  | [] =>
      match end_ with
      | InvoiceStream.Exhausted => ret tt
      | InvoiceStream.Failed e => raise e
      end
  end.

(** [x or 0] for [x] an [int] or [None]. *)
Definition or_0 (x : option Z) : Z :=
  match x with
  | Some n => n
  | None => 0
  end.

(** The settle index is read outside the [try]; whatever is raised inside it
    is caught, and answered by a sleep of [LND_CONNECT_RETRY_S] seconds. *)
Definition try_processing : M W unit :=
  latest_settle_index <- _get_latest_settle_index ;;
  let latest_settle_index := or_0 latest_settle_index in
  try_except
    (invoice_stream <- subscribe_invoices latest_settle_index ;;
     for_each_invoice (InvoiceStream.invoices invoice_stream)
       (InvoiceStream.end_ invoice_stream))
    (fun w => (Ok tt, time_sleep LND_CONNECT_RETRY_S w)).

(** Where [while True: self.try_processing()] stands after a number of
    passes: still in the loop, or left by an exception.  The loop has no
    [break] and no [return]. *)
Inductive loop_state : Type :=
| Looping
| Escaped (e : exn).

Fixpoint process_subscribed_invoices (passes : nat) : W -> loop_state * W :=
  fun w =>
    match passes with
    | O => (Looping, w)
    | S k =>
        match try_processing w with
        | (Ok _, w') => process_subscribed_invoices k w'
        | (Raise e, w') => (Escaped e, w')
        end
    end.

End Methods.
End SentOffersVerifier.

(* ================================================================== *)
(** * squeaknode/admin/webapp/app.py *)

Module AdminWebApp.

(** What a view gives back to Flask: a body, sent with status 200, or a text
    with a status of its own. *)
Inductive view_result : Type :=
| Body (data : bytes)
| Text (message : string) (status : Z).

Section HandleRequest.
Context {W : Type}.
Variables Request Reply : Type.
(** The protobuf runtime and [str(e)]. *)
Variable ParseFromString : bytes -> result Request.
Variable SerializeToString : Reply -> result bytes.
Variable str : exn -> string.
Local Open Scope world_scope.

(** [data] is [request.get_data()].  Parsing stands before the [try]. *)
Definition handle_request (data : bytes)
    (handle_rpc_request : Request -> M W Reply) : M W view_result :=
  request_message <- lift (ParseFromString data) ;;
  try_catch
    (reply <- handle_rpc_request request_message ;;
     serialized <- lift (SerializeToString reply) ;;
     ret (Body serialized))
    (fun e => ret (Text (str e) 500)).

End HandleRequest.

(** ** The view [login] *)

Section Login.
(** [squeak_admin_web_user.User], as far as the view uses it. *)
Variable User : Type.
Variable get_user_by_username : string -> option User.
Variable check_password : User -> string -> bool.

(** The fields of a [LoginForm] for which [validate_on_submit()] is true. *)
Record form : Type := mk_form {
  username : string;
  password : string;
  remember_me : bool }.

(** What the view does: where it sends the browser, the message it flashes,
    and the user it hands to [login_user], with the remember flag. *)
Inductive login_result : Type :=
| RedirectIndex (logged_in : option (User * bool))
| RedirectLogin (flash : string)
| RenderLogin.

Definition login (is_authenticated : bool) (submitted : option form)
  : login_result :=
  if is_authenticated then RedirectIndex None
  else
    match submitted with
    | Some f =>
        match get_user_by_username (username f) with
        | None => RedirectLogin "Invalid username or password"
        | Some user =>
            if negb (check_password user (password f))
            then RedirectLogin "Invalid username or password"
            else RedirectIndex (Some (user, remember_me f))
        end
    | None => RenderLogin
    end.

End Login.

(** ** The routes of [create_app] *)

(** A view either answers an RPC through [handle_request], with the request
    message it parses into and the handler method it calls, or is a page. *)
Inductive view : Type :=
| Rpc (module_ request handler : string)
| Page.

(** One [@app.route]: the rule, the [methods] argument if there is one (Flask
    answers GET when there is none), whether [@login_required] wraps the view,
    and the name of the view function. *)
Record route : Type := mk_route {
  rule : string;
  methods : option (list string);
  login_required : bool;
  endpoint : string;
  route_view : view }.

Local Open Scope string_scope.

Definition routes : list route := [
  mk_route "/login" (Some ["GET"; "POST"]) false "login"
    Page;
  mk_route "/logout" None false "logout"
    Page;
  mk_route "/" None true "index"
    Page;
  mk_route "/user" None true "user"
    Page;
  mk_route "/hello" None true "hello_world"
    Page;
  mk_route "/lndgetinfo" (Some ["POST"]) true "lndgetinfo"
    (Rpc "lnd_pb2" "GetInfoRequest" "handle_lnd_get_info");
  mk_route "/lndwalletbalance" (Some ["POST"]) true "lndwalletbalance"
    (Rpc "lnd_pb2" "WalletBalanceRequest" "handle_lnd_wallet_balance");
  mk_route "/lndgettransactions" (Some ["POST"]) true "lndgettransactions"
    (Rpc "lnd_pb2" "GetTransactionsRequest" "handle_lnd_get_transactions");
  mk_route "/lndlistpeers" (Some ["POST"]) true "lndlistpeers"
    (Rpc "lnd_pb2" "ListPeersRequest" "handle_lnd_list_peers");
  mk_route "/lndlistchannels" (Some ["POST"]) true "lndlistchannels"
    (Rpc "lnd_pb2" "ListChannelsRequest" "handle_lnd_list_channels");
  mk_route "/lndpendingchannels" (Some ["POST"]) true "lndpendingchannels"
    (Rpc "lnd_pb2" "PendingChannelsRequest" "handle_lnd_pending_channels");
  mk_route "/lndconnectpeer" (Some ["POST"]) true "lndconnectpeer"
    (Rpc "lnd_pb2" "ConnectPeerRequest" "handle_lnd_connect_peer");
  mk_route "/lnddisconnectpeer" (Some ["POST"]) true "lnddisconnectpeer"
    (Rpc "lnd_pb2" "DisconnectPeerRequest" "handle_lnd_disconnect_peer");
  mk_route "/lndopenchannelsync" (Some ["POST"]) true "lndopenchannelsync"
    (Rpc "lnd_pb2" "OpenChannelRequest" "handle_lnd_open_channel_sync");
  mk_route "/lndclosechannel" (Some ["POST"]) true "lndclosechannel"
    (Rpc "lnd_pb2" "CloseChannelRequest" "handle_lnd_close_channel");
  mk_route "/lndnewaddress" (Some ["POST"]) true "lndnewaddress"
    (Rpc "lnd_pb2" "NewAddressRequest" "handle_lnd_new_address");
  mk_route "/lndsendcoins" (Some ["POST"]) true "lndsendcoins"
    (Rpc "lnd_pb2" "SendCoinsRequest" "handle_lnd_send_coins");
  mk_route "/gettimelinesqueakdisplays" (Some ["POST"]) true "gettimelinesqueakdisplays"
    (Rpc "squeak_admin_pb2" "GetTimelineSqueakDisplaysRequest" "handle_get_timeline_squeak_display_entries");
  mk_route "/getsqueakprofile" (Some ["POST"]) true "getsqueakprofile"
    (Rpc "squeak_admin_pb2" "GetSqueakProfileRequest" "handle_get_squeak_profile");
  mk_route "/setsqueakprofilefollowing" (Some ["POST"]) true "setsqueakprofilefollowing"
    (Rpc "squeak_admin_pb2" "SetSqueakProfileFollowingRequest" "handle_set_squeak_profile_following");
  mk_route "/setsqueakprofileusecustomprice" (Some ["POST"]) true "setsqueakprofileusecustomprice"
    (Rpc "squeak_admin_pb2" "SetSqueakProfileUseCustomPriceRequest" "handle_set_squeak_profile_use_custom_price");
  mk_route "/setsqueakprofilecustomprice" (Some ["POST"]) true "setsqueakprofilecustomprice"
    (Rpc "squeak_admin_pb2" "SetSqueakProfileCustomPriceRequest" "handle_set_squeak_profile_custom_price");
  mk_route "/setsqueakprofilesharing" (Some ["POST"]) true "setsqueakprofilesharing"
    (Rpc "squeak_admin_pb2" "SetSqueakProfileSharingRequest" "handle_set_squeak_profile_sharing");
  mk_route "/renamesqueakprofile" (Some ["POST"]) true "renamesqueakprofile"
    (Rpc "squeak_admin_pb2" "RenameSqueakProfileRequest" "handle_rename_squeak_profile");
  mk_route "/setsqueakprofileimage" (Some ["POST"]) true "setsqueakprofileimage"
    (Rpc "squeak_admin_pb2" "SetSqueakProfileImageRequest" "handle_set_squeak_profile_image");
  mk_route "/clearsqueakprofileimage" (Some ["POST"]) true "clearsqueakprofileimage"
    (Rpc "squeak_admin_pb2" "ClearSqueakProfileImageRequest" "handle_clear_squeak_profile_image");
  mk_route "/getpeers" (Some ["POST"]) true "getpeers"
    (Rpc "squeak_admin_pb2" "GetPeersRequest" "handle_get_squeak_peers");
  mk_route "/payoffer" (Some ["POST"]) true "payoffer"
    (Rpc "squeak_admin_pb2" "PayOfferRequest" "handle_pay_offer");
  mk_route "/getbuyoffers" (Some ["POST"]) true "getbuyoffers"
    (Rpc "squeak_admin_pb2" "GetBuyOffersRequest" "handle_get_buy_offers");
  mk_route "/getbuyoffer" (Some ["POST"]) true "getbuyoffer"
    (Rpc "squeak_admin_pb2" "GetBuyOfferRequest" "handle_get_buy_offer");
  mk_route "/getpeer" (Some ["POST"]) true "getpeer"
    (Rpc "squeak_admin_pb2" "GetPeerRequest" "handle_get_squeak_peer");
  mk_route "/getpeerbyaddress" (Some ["POST"]) true "getpeerbyaddress"
    (Rpc "squeak_admin_pb2" "GetPeerByAddressRequest" "handle_get_squeak_peer_by_address");
  mk_route "/setpeerdownloading" (Some ["POST"]) true "setpeerdownloading"
    (Rpc "squeak_admin_pb2" "SetPeerDownloadingRequest" "handle_set_squeak_peer_downloading");
  mk_route "/setpeeruploading" (Some ["POST"]) true "setpeeruploading"
    (Rpc "squeak_admin_pb2" "SetPeerUploadingRequest" "handle_set_squeak_peer_uploading");
  mk_route "/setpeerautoconnect" (Some ["POST"]) true "setpeerautoconnect"
    (Rpc "squeak_admin_pb2" "SetPeerAutoconnectRequest" "handle_set_squeak_peer_autoconnect");
  mk_route "/renamepeer" (Some ["POST"]) true "renamepeer"
    (Rpc "squeak_admin_pb2" "RenamePeerRequest" "handle_rename_squeak_peer");
  mk_route "/getprofiles" (Some ["POST"]) true "getprofiles"
    (Rpc "squeak_admin_pb2" "GetProfilesRequest" "handle_get_profiles");
  mk_route "/getsigningprofiles" (Some ["POST"]) true "getsigningprofiles"
    (Rpc "squeak_admin_pb2" "GetSigningProfilesRequest" "handle_get_signing_profiles");
  mk_route "/getcontactprofiles" (Some ["POST"]) true "getcontactprofiles"
    (Rpc "squeak_admin_pb2" "GetContactProfilesRequest" "handle_get_contact_profiles");
  mk_route "/makesqueakrequest" (Some ["POST"]) true "makesqueakrequest"
    (Rpc "squeak_admin_pb2" "MakeSqueakRequest" "handle_make_squeak");
  mk_route "/getsqueakdisplay" (Some ["POST"]) true "getsqueakdisplay"
    (Rpc "squeak_admin_pb2" "GetSqueakDisplayRequest" "handle_get_squeak_display_entry");
  mk_route "/getancestorsqueakdisplays" (Some ["POST"]) true "getancestorsqueakdisplays"
    (Rpc "squeak_admin_pb2" "GetAncestorSqueakDisplaysRequest" "handle_get_ancestor_squeak_display_entries");
  mk_route "/getreplysqueakdisplays" (Some ["POST"]) true "getreplysqueakdisplays"
    (Rpc "squeak_admin_pb2" "GetReplySqueakDisplaysRequest" "handle_get_reply_squeak_display_entries");
  mk_route "/getsqueakprofilebyaddress" (Some ["POST"]) true "getsqueakprofilebyaddress"
    (Rpc "squeak_admin_pb2" "GetSqueakProfileByAddressRequest" "handle_get_squeak_profile_by_address");
  mk_route "/getaddresssqueakdisplays" (Some ["POST"]) true "getaddresssqueakdisplays"
    (Rpc "squeak_admin_pb2" "GetAddressSqueakDisplaysRequest" "handle_get_squeak_display_entries_for_address");
  mk_route "/getsearchsqueakdisplays" (Some ["POST"]) true "getsearchsqueakdisplays"
    (Rpc "squeak_admin_pb2" "GetSearchSqueakDisplaysRequest" "handle_get_squeak_display_entries_for_text_search");
  mk_route "/createcontactprofile" (Some ["POST"]) true "createcontactprofile"
    (Rpc "squeak_admin_pb2" "CreateContactProfileRequest" "handle_create_contact_profile");
  mk_route "/createsigningprofile" (Some ["POST"]) true "createsigningprofile"
    (Rpc "squeak_admin_pb2" "CreateSigningProfileRequest" "handle_create_signing_profile");
  mk_route "/importsigningprofile" (Some ["POST"]) true "importsigningprofile"
    (Rpc "squeak_admin_pb2" "ImportSigningProfileRequest" "handle_import_signing_profile");
  mk_route "/createpeer" (Some ["POST"]) true "createpeer"
    (Rpc "squeak_admin_pb2" "CreatePeerRequest" "handle_create_peer");
  mk_route "/deletepeer" (Some ["POST"]) true "deletepeer"
    (Rpc "squeak_admin_pb2" "DeletePeerRequest" "handle_delete_squeak_peer");
  mk_route "/deleteprofile" (Some ["POST"]) true "deleteprofile"
    (Rpc "squeak_admin_pb2" "DeleteSqueakProfileRequest" "handle_delete_squeak_profile");
  mk_route "/deletesqueak" (Some ["POST"]) true "deletesqueak"
    (Rpc "squeak_admin_pb2" "DeleteSqueakRequest" "handle_delete_squeak");
  mk_route "/syncsqueak" (Some ["POST"]) true "syncsqueak"
    (Rpc "squeak_admin_pb2" "SyncSqueakRequest" "handle_sync_squeak");
  mk_route "/downloadsqueak" (Some ["POST"]) true "downloadsqueak"
    (Rpc "squeak_admin_pb2" "DownloadSqueakRequest" "handle_download_squeak");
  mk_route "/downloadoffers" (Some ["POST"]) true "downloadoffers"
    (Rpc "squeak_admin_pb2" "DownloadOffersRequest" "handle_download_offers");
  mk_route "/downloadreplies" (Some ["POST"]) true "downloadreplies"
    (Rpc "squeak_admin_pb2" "DownloadRepliesRequest" "handle_download_replies");
  mk_route "/downloadaddresssqueaks" (Some ["POST"]) true "downloadaddresssqueaks"
    (Rpc "squeak_admin_pb2" "DownloadAddressSqueaksRequest" "handle_download_address_squeaks");
  mk_route "/getsqueakdetails" (Some ["POST"]) true "getsqueakdetails"
    (Rpc "squeak_admin_pb2" "GetSqueakDetailsRequest" "handle_get_squeak_details");
  mk_route "/getsentpayments" (Some ["POST"]) true "getsentpayments"
    (Rpc "squeak_admin_pb2" "GetSentPaymentsRequest" "handle_get_sent_payments");
  mk_route "/getsentoffers" (Some ["POST"]) true "getsentoffers"
    (Rpc "squeak_admin_pb2" "GetSentOffersRequest" "handle_get_sent_offers");
  mk_route "/getreceivedpayments" (Some ["POST"]) true "getreceivedpayments"
    (Rpc "squeak_admin_pb2" "GetReceivedPaymentsRequest" "handle_get_received_payments");
  mk_route "/getnetwork" (Some ["POST"]) true "getnetwork"
    (Rpc "squeak_admin_pb2" "GetNetworkRequest" "handle_get_network");
  mk_route "/getsqueakprofileprivatekey" (Some ["POST"]) true "getsqueakprofileprivatekey"
    (Rpc "squeak_admin_pb2" "GetSqueakProfilePrivateKeyRequest" "handle_get_squeak_profile_private_key");
  mk_route "/getpaymentsummary" (Some ["POST"]) true "getpaymentsummary"
    (Rpc "squeak_admin_pb2" "GetPaymentSummaryRequest" "handle_get_payment_summary");
  mk_route "/reprocessreceivedpayments" (Some ["POST"]) true "reprocessreceivedpayments"
    (Rpc "squeak_admin_pb2" "ReprocessReceivedPaymentsRequest" "handle_reprocess_received_payments");
  mk_route "/likesqueak" (Some ["POST"]) true "likesqueak"
    (Rpc "squeak_admin_pb2" "LikeSqueakRequest" "handle_like_squeak");
  mk_route "/unlikesqueak" (Some ["POST"]) true "unlikesqueak"
    (Rpc "squeak_admin_pb2" "UnlikeSqueakRequest" "handle_unlike_squeak");
  mk_route "/getlikedsqueakdisplays" (Some ["POST"]) true "getlikedsqueakdisplays"
    (Rpc "squeak_admin_pb2" "GetLikedSqueakDisplaysRequest" "handle_get_liked_squeak_display_entries");
  mk_route "/getconnectedpeers" (Some ["POST"]) true "getconnectedpeers"
    (Rpc "squeak_admin_pb2" "GetConnectedPeersRequest" "handle_get_connected_peers");
  mk_route "/getconnectedpeer" (Some ["POST"]) true "getconnectedpeer"
    (Rpc "squeak_admin_pb2" "GetConnectedPeerRequest" "handle_get_connected_peer");
  mk_route "/connectpeer" (Some ["POST"]) true "connectpeer"
    (Rpc "squeak_admin_pb2" "ConnectPeerRequest" "handle_connect_peer");
  mk_route "/disconnectpeer" (Some ["POST"]) true "disconnectpeer"
    (Rpc "squeak_admin_pb2" "DisconnectPeerRequest" "handle_disconnect_peer");
  mk_route "/getexternaladdress" (Some ["POST"]) true "getexternaladdress"
    (Rpc "squeak_admin_pb2" "GetExternalAddressRequest" "handle_get_external_address") ].



(** The route whose rule is [path], as the URL map finds it. *)
Definition find_route (path : string) : option route :=
  find (fun r => String.eqb (rule r) path) routes.



End AdminWebApp.

(* ================================================================== *)
(** * A closed world to run the methods in

    One small implementation of every collaborator, so that the methods can
    be evaluated on the scenarios of the specification (section 8).  It keeps
    a log of the calls it receives.  Nothing here is part of squeaknode: the
    digest is a stand-in for SHA-256 and the "point" of a scalar is the scalar
    behind a parity byte. *)

Module Scenario.

Record world : Type := mk {
  now : Q;
  tweaks : list bytes;
  ledger : list (bytes * Z);
  node_uris : list string;
  best_block : BlockInfo.t;
  streams : list InvoiceStream.t;
  rows : list SentOfferRow.t;
  stored : list ServerReceivedPayment.t;
  slept : Z;
  stop_requested : bool;
  log : list string }.

Definition logged (name : string) (w : world) : world :=
  mk (now w) (tweaks w) (ledger w) (node_uris w) (best_block w) (streams w)
     (rows w) (stored w) (slept w) (stop_requested w) (log w ++ [name]).

Definition with_tweaks (t : list bytes) (w : world) : world :=
  mk (now w) t (ledger w) (node_uris w) (best_block w) (streams w)
     (rows w) (stored w) (slept w) (stop_requested w) (log w).

Definition with_ledger (l : list (bytes * Z)) (w : world) : world :=
  mk (now w) (tweaks w) l (node_uris w) (best_block w) (streams w)
     (rows w) (stored w) (slept w) (stop_requested w) (log w).

Definition with_streams (s : list InvoiceStream.t) (w : world) : world :=
  mk (now w) (tweaks w) (ledger w) (node_uris w) (best_block w) s
     (rows w) (stored w) (slept w) (stop_requested w) (log w).

Definition with_stored (s : list ServerReceivedPayment.t) (w : world) : world :=
  mk (now w) (tweaks w) (ledger w) (node_uris w) (best_block w) (streams w)
     (rows w) s (slept w) (stop_requested w) (log w).

Definition with_slept (s : Z) (w : world) : world :=
  mk (now w) (tweaks w) (ledger w) (node_uris w) (best_block w) (streams w)
     (rows w) (stored w) s (stop_requested w) (log w).

Definition digest (preimage : bytes) : bytes := rev preimage.

Definition request_of (preimage : bytes) : string :=
  ("lnbc" ++ hex (digest preimage))%string.

Definition find_request (payment_request : string) (w : world)
  : option (bytes * Z) :=
  find (fun e => String.eqb (request_of (fst e)) payment_request) (ledger w).

Record squeak : Type := mk_squeak {
  content : string;
  height : Z;
  hash_block : bytes;
  time : Z;
  reply_to : option bytes;
  point : bytes }.

Definition scalar (first : byte) : bytes := first :: repeat x00 31.

Definition point_of (s : bytes) : bytes := x02 :: s.

#[export] Instance lib : SqueakLib := {|
  CSqueak := squeak;
  CSigningKey := string;
  paymentPoint := point;
  get_hash := fun s => digest (point s);
  new_CSigningKey := fun s =>
    match s with
    | EmptyString => Raise ValueError
    | _ => Ok s
    end;
  MakeSqueakFromStr := fun _ c h bh t r =>
    Ok (mk_squeak c h bh t r (point_of (scalar x01)), scalar x01);
  payment_point_bytes_from_scalar_bytes := point_of |}.

#[export] Instance py : Builtins := {|
  bytes_decode := fun b => Ok (string_of_list_byte b);
  int_of_str := fun _ => Ok 9735 |}.

#[export] Instance rt : Runtime world := {|
  time_time := now;
  time_sleep := fun s w => with_slept (slept w + s) w;
  generate_tweak := fun w =>
    match tweaks w with
    | t :: rest => (t, with_tweaks rest w)
    | [] => (scalar x07, w)
    end |}.

#[export] Instance bitcoin_client : BitcoinClient world := {|
  get_best_block_info := fun w =>
    (Ok (best_block w), logged "get_best_block_info" w) |}.

#[export] Instance lightning_client : LightningClient world := {|
  add_invoice := fun preimage amount w =>
    (Ok (AddInvoiceResponse.mk (digest preimage) (request_of preimage)),
     logged "add_invoice" (with_ledger (ledger w ++ [(preimage, amount)]) w));
  lookup_invoice := fun r_hash_str w =>
    (match find (fun e => String.eqb (hex (digest (fst e))) r_hash_str)
             (ledger w) with
     | Some e => Ok (Invoice.mk (digest (fst e)) (int_of_float (now w)) 3600
                       false 0)
     | None => Raise (RpcError NOT_FOUND)
     end, logged "lookup_invoice" w);
  decode_pay_req := fun payment_request w =>
    (match find_request payment_request w with
     | Some e => Ok (PayReq.mk (hex (digest (fst e))) (snd e) "seller"
                       (int_of_float (now w)) 3600)
     | None => Raise (RpcError UNKNOWN)
     end, logged "decode_pay_req" w);
  pay_invoice_sync := fun payment_request w =>
    (match find_request payment_request w with
     | Some e => Ok (SendResponse.mk (fst e) "")
     | None => Ok (SendResponse.mk [] "no_route")
     end, logged "pay_invoice_sync" w);
  get_info := fun w =>
    (Ok (GetInfoResponse.mk (node_uris w)), logged "get_info" w);
  subscribe_invoices := fun settle_index w =>
    match streams w with
    | s :: rest => (Ok s, logged "subscribe_invoices" (with_streams rest w))
    | [] => (Raise (RpcError UNAVAILABLE), logged "subscribe_invoices" w)
    end |}.

#[export] Instance squeak_db : SqueakDb world := {|
  get_latest_settle_index := fun w =>
    (match stored w with
     | [] => Ok None
     | p :: rest =>
         Ok (Some (fold_left Z.max
                     (map ServerReceivedPayment.settle_index rest)
                     (ServerReceivedPayment.settle_index p)))
     end, w);
  get_sent_offer_by_preimage_hash := fun h w =>
    (Ok (find (fun r => String.eqb (SentOfferRow.preimage_hash r) h) (rows w)),
     w);
  insert_received_payment := fun p w =>
    (Ok tt, with_stored (stored w ++ [p]) w) |}.

Definition block_0 : BlockInfo.t := BlockInfo.mk 700000 (scalar x0b) [].

(** A quiet world: 1.5 s past the epoch, one tweak to hand out, no invoice. *)
Definition empty (stop : bool) : world :=
  mk (3 # 2) [scalar x02] [] [] block_0 [] [] [] 0 stop [].

Definition seller_address : PeerAddress.t := PeerAddress.mk "seller.example" 8774.
Definition buyer_address : PeerAddress.t := PeerAddress.mk "buyer.example" 8774.

(** Scenario 1: the squeak on sale, locked by the key [01 00 .. 00]. *)
Definition the_squeak : squeak :=
  mk_squeak "hello" 700000 (scalar x0b) 1 None (point_of (scalar x01)).

Definition signing_profile : SqueakProfile.t :=
  SqueakProfile.mk (Some 1) "alice" "addr" (Some [x6b; x65; x79])
    true false 0 None.

Definition contact_profile : SqueakProfile.t :=
  SqueakProfile.mk (Some 2) "bob" "addr" None true false 0 None.

(** Scenario 5: after settle index 42, invoices 43, 44 and 45 arrive and the
    stream breaks. *)
Definition settled_invoice (i : Z) : Invoice.t :=
  Invoice.mk [x0a] 0 3600 true i.

Definition open_invoice (i : Z) : Invoice.t :=
  Invoice.mk [x0a] 0 3600 false i.

Definition broken_stream : InvoiceStream.t :=
  InvoiceStream.mk [settled_invoice 43; open_invoice 0; settled_invoice 44;
                    settled_invoice 45]
    (InvoiceStream.Failed (RpcError UNAVAILABLE)).

Definition verifier_world (stop : bool) : world :=
  mk (3 # 2) [] [] [] block_0 [broken_stream]
     [SentOfferRow.mk (scalar x0c) "0a" 1000]
     [ServerReceivedPayment.mk None None (scalar x0c) "0a" 1000 42]
     0 stop [].

Definition lookup (payment_hash : bytes) : SentOffer.t :=
  SentOffer.mk None (scalar x0c) payment_hash (scalar x03) (scalar x02) 1000
    "lnbc" 0 3600 buyer_address.

(** Scenario 4: the local node's outbound connection carries nonce 165. *)
Definition outbound : Peer.t :=
  Peer.mk seller_address (Some (Version.mk 165)) 7.

Definition echo : Peer.t := Peer.mk buyer_address None 165.

Definition inbound : Peer.t := Peer.mk seller_address None 165.

Definition late_outbound : Peer.t :=
  Peer.mk buyer_address (Some (Version.mk 165)) 8.

(** Scenario 1, step by step: what the seller and the buyer hold, and the
    world after each step. *)
Definition sale_hash : bytes := digest (point_of (scalar x01)).

Definition sale_sent_offer : SentOffer.t :=
  SentOffer.mk None sale_hash (digest (scalar x03)) (scalar x03) (scalar x02)
    1000 (request_of (scalar x03)) 1 3600 buyer_address.

Definition w_created : world :=
  logged "lookup_invoice"
    (logged "add_invoice"
       (with_ledger [(scalar x03, 1000)] (with_tweaks [] (empty false)))).

Definition sale_offer : Offer.t :=
  Offer.mk sale_hash (scalar x02) (request_of (scalar x03)) "" 0.

Definition w_packaged : world := logged "get_info" w_created.

Definition sale_received_offer : ReceivedOffer.t :=
  ReceivedOffer.mk None sale_hash 1000 (digest (scalar x03)) (scalar x02)
    (point_of (scalar x01)) 1 3600 (request_of (scalar x03)) "seller"
    (LightningAddressHostPort.mk "seller.example" 0) seller_address.

Definition w_unpacked : world := logged "decode_pay_req" w_packaged.

Definition sale_sent_payment : SentPayment.t :=
  SentPayment.mk None None seller_address sale_hash (digest (scalar x03))
    (scalar x01) 1000 "seller" true.

Definition w_paid : world := logged "pay_invoice_sync" w_unpacked.

(** Scenario 2: the offer with the first byte of its squeak hash changed. *)
Definition tampered_offer : Offer.t :=
  Offer.mk (x01 :: tl sale_hash) (scalar x02) (request_of (scalar x03)) "" 0.

(** Scenario 4: the manager once the outbound connection is registered. *)
Definition connected : ConnectionManager.t :=
  ConnectionManager.mk [(seller_address, outbound)] None.

(** A manager whose only peer has no local version yet. *)
Definition unversioned : ConnectionManager.t :=
  ConnectionManager.mk [(seller_address, inbound)] None.

(** The chain of the scenario has the one block [best_block]. *)
#[export] Instance chain : BlockLookup world := {|
  get_block_info_by_height := fun h w =>
    (if h =? BlockInfo.block_height (best_block w)
     then Ok (best_block w)
     else Raise (RpcError NOT_FOUND),
     logged "get_block_info_by_height" w) |}.

#[export] Instance anchor : BlockAnchor := {|
  CBlockHeader := bytes;
  nBlockHeight := height;
  hashBlock := hash_block;
  parse_block_header := fun header => Ok header |}.

(** Closing a peer leaves its host in the log. *)
#[export] Instance connection : PeerConnection world := {|
  close := fun peer w =>
    (Ok tt, logged (PeerAddress.host (Peer.address peer)) w) |}.

Definition with_uris (u : list string) (w : world) : world :=
  mk (now w) (tweaks w) (ledger w) u (best_block w) (streams w)
     (rows w) (stored w) (slept w) (stop_requested w) (log w).

(** A squeak anchored in a block that the chain does not have at that
    height. *)
Definition stale_squeak : squeak :=
  mk_squeak "hello" 700000 (scalar x0d) 1 None (point_of (scalar x01)).

(** An invoice that settled for a preimage the database has no offer for. *)
Definition unknown_invoice : Invoice.t := Invoice.mk [x0e] 0 3600 true 46.

(** A manager with a callback registered. *)
Definition observed : ConnectionManager.t :=
  ConnectionManager.mk [] (Some (fun _ => Ok tt)).

(** The seller's node listing an IPv4 address first, and an IPv6 one. *)
Definition core_world : world :=
  with_uris ["02ab@10.0.0.1:9735"; "junk"]%string w_created.

Definition ipv6_world : world :=
  with_uris ["02ab@[::1]:9735"]%string w_created.

(** A stream in which the second settled invoice has no offer stored. *)
Definition gap_stream : InvoiceStream.t :=
  InvoiceStream.mk [settled_invoice 43; unknown_invoice; settled_invoice 44]
    InvoiceStream.Exhausted.

Definition gap_world : world := with_streams [gap_stream] (verifier_world false).

(** The one user of the admin page. *)
Definition get_user (name : string) : option string :=
  if String.eqb name "admin" then Some name else None.

Definition check_user (user secret : string) : bool :=
  String.eqb secret "squeak".

End Scenario.

(* ================================================================== *)
(** * Big-endian scalars *)

Section Scalars.

Lemma byte_to_Z_range b : 0 <= byte_to_Z b < 256.
Proof.
  unfold byte_to_Z. pose proof (Byte.to_N_bounded b) as H.
  split; [apply N2Z.is_nonneg|]. lia.
Qed.

Lemma byte_of_to_Z b : byte_of_Z (byte_to_Z b) = b.
Proof.
  unfold byte_of_Z. rewrite Z.mod_small by apply byte_to_Z_range.
  unfold byte_to_Z. rewrite N2Z.id, Byte.of_to_N. reflexivity.
Qed.

Lemma byte_to_of_Z z : byte_to_Z (byte_of_Z z) = z mod 256.
Proof.
  unfold byte_of_Z, byte_to_Z.
  assert (Hr : 0 <= z mod 256 < 256) by (apply Z.mod_pos_bound; lia).
  destruct (Byte.of_N (Z.to_N (z mod 256))) as [b|] eqn:E.
  - apply Byte.to_of_N in E. rewrite E, Z2N.id; lia.
  - apply Byte.of_N_None_iff in E. lia.
Qed.

Lemma int_from_bytes_snoc l b :
  int_from_bytes (l ++ [b]) = int_from_bytes l * 256 + byte_to_Z b.
Proof. unfold int_from_bytes. rewrite fold_left_app. reflexivity. Qed.

Lemma int_from_bytes_bound l :
  0 <= int_from_bytes l < 256 ^ Z.of_nat (List.length l).
Proof.
  induction l as [|b l IH] using rev_ind.
  - cbn. lia.
  - rewrite int_from_bytes_snoc, length_app. cbn [List.length].
    replace (Z.of_nat (List.length l + 1)) with (Z.succ (Z.of_nat (List.length l)))
      by lia.
    rewrite Z.pow_succ_r by lia.
    pose proof (byte_to_Z_range b). lia.
Qed.

Lemma length_int_to_bytes n z : List.length (int_to_bytes n z) = n.
Proof.
  revert z. induction n as [|n IH]; intros z; cbn [int_to_bytes].
  - reflexivity.
  - rewrite length_app, IH. cbn. lia.
Qed.

Lemma int_from_to_bytes n z :
  0 <= z < 256 ^ Z.of_nat n -> int_from_bytes (int_to_bytes n z) = z.
Proof.
  revert z. induction n as [|n IH]; intros z Hz.
  - cbn in *. lia.
  - cbn [int_to_bytes]. rewrite int_from_bytes_snoc, byte_to_of_Z.
    rewrite Nat2Z.inj_succ, Z.pow_succ_r in Hz by lia.
    rewrite IH.
    + pose proof (Z.div_mod z 256). lia.
    + split; [apply Z.div_pos; lia|].
      apply Z.div_lt_upper_bound; lia.
Qed.

Lemma int_to_from_bytes l :
  int_to_bytes (List.length l) (int_from_bytes l) = l.
Proof.
  induction l as [|b l IH] using rev_ind.
  - reflexivity.
  - rewrite length_app. cbn [List.length].
    replace (List.length l + 1)%nat with (S (List.length l)) by lia.
    cbn [int_to_bytes]. rewrite int_from_bytes_snoc.
    pose proof (byte_to_Z_range b) as Hb.
    replace ((int_from_bytes l * 256 + byte_to_Z b) / 256)
      with (int_from_bytes l).
    + rewrite IH. f_equal. f_equal.
      rewrite <- (byte_of_to_Z b) at 2. unfold byte_of_Z.
      replace ((int_from_bytes l * 256 + byte_to_Z b) mod 256)
        with (byte_to_Z b mod 256); [reflexivity|].
      rewrite Z.add_comm, Z.mod_add by lia. reflexivity.
    + symmetry. rewrite Z.add_comm, Z.div_add by lia.
      rewrite Z.div_small by lia. lia.
Qed.

Lemma order_fits : 0 < Util.SECP256K1_ORDER < 256 ^ Z.of_nat Util.DATA_KEY_LENGTH.
Proof. split; reflexivity. Qed.

(** A tweaked scalar is a 32-byte scalar below the order. *)
Lemma add_tweak_in_range a t : Util.in_range (Util.add_tweak a t).
Proof.
  pose proof order_fits as Ho.
  unfold Util.in_range, Util.add_tweak. rewrite length_int_to_bytes.
  split; [reflexivity|].
  pose proof (Z.mod_pos_bound (int_from_bytes a + int_from_bytes t)
                Util.SECP256K1_ORDER ltac:(lia)).
  rewrite int_from_to_bytes; lia.
Qed.

(** The round trip of section 4.1: subtracting the tweak that was added
    gives back a scalar that is in range. *)
Lemma tweak_round_trip a t :
  Util.in_range a -> Util.subtract_tweak (Util.add_tweak a t) t = a.
Proof.
  intros [Hlen Ha]. pose proof order_fits as Ho.
  pose proof (int_from_bytes_bound a) as Hb.
  unfold Util.subtract_tweak, Util.add_tweak.
  set (n := Util.SECP256K1_ORDER) in *.
  pose proof (Z.mod_pos_bound (int_from_bytes a + int_from_bytes t) n
                ltac:(lia)).
  rewrite int_from_to_bytes by lia.
  rewrite Zminus_mod_idemp_l.
  replace (int_from_bytes a + int_from_bytes t - int_from_bytes t)
    with (int_from_bytes a) by lia.
  rewrite Z.mod_small by lia.
  rewrite <- Hlen. apply int_to_from_bytes.
Qed.

Lemma add_tweak_nonempty a t : Util.add_tweak a t <> [].
Proof.
  intros E. pose proof (length_int_to_bytes Util.DATA_KEY_LENGTH
    ((int_from_bytes a + int_from_bytes t) mod Util.SECP256K1_ORDER)) as H.
  unfold Util.add_tweak in E. rewrite E in H. discriminate H.
Qed.

(** Scenario 1 of section 8: key [01 00..], nonce [02 00..], preimage
    [03 00..]. *)
Example scenario_1_preimage :
  Util.add_tweak (Scenario.scalar x01) (Scenario.scalar x02)
  = Scenario.scalar x03.
Proof. vm_compute. reflexivity. Qed.

End Scalars.

(* ================================================================== *)
(** * hex and fromhex *)

Lemma fromhex_hex_byte b rest :
  fromhex (hex [b] ++ rest) = option_map (cons b) (fromhex rest).
Proof.
  destruct b; cbn; destruct (fromhex rest); reflexivity.
Qed.

Lemma fromhex_hex bs : fromhex (hex bs) = Some bs.
Proof.
  induction bs as [|b bs IH].
  - reflexivity.
  - change (hex (b :: bs)) with (hex [b] ++ hex bs)%string.
    rewrite fromhex_hex_byte, IH. reflexivity.
Qed.

Lemma hex_inj a b : hex a = hex b -> a = b.
Proof.
  intros H. apply (f_equal fromhex) in H.
  rewrite !fromhex_hex in H. congruence.
Qed.

Lemma bytes_eqb_eq a b : bytes_eqb a b = true <-> a = b.
Proof.
  unfold bytes_eqb. destruct (bytes_eq_dec a b); split; congruence.
Qed.

Lemma bytes_eqb_refl a : bytes_eqb a a = true.
Proof. apply bytes_eqb_eq. reflexivity. Qed.

Lemma bytes_eqb_neq a b : a <> b -> bytes_eqb a b = false.
Proof.
  unfold bytes_eqb. destruct (bytes_eq_dec a b); congruence.
Qed.

(* ================================================================== *)
(** * The squeak core: what each method returns *)

Section SqueakCoreFacts.
Context {W : Type} {lib : SqueakLib} {py : Builtins} {rt : Runtime W}.
Context {bitcoin_client : BitcoinClient W}.
Context {lightning_client : LightningClient W}.

Lemma create_offer_inv squeak secret_key peer_address price_msat w so w' :
  SqueakCore.create_offer squeak secret_key peer_address price_msat w
  = (Ok so, w') ->
  exists nonce w1 resp w2 inv,
    generate_tweak w = (nonce, w1) /\
    add_invoice (Util.add_tweak secret_key nonce) price_msat w1
    = (Ok resp, w2) /\
    lookup_invoice (hex (AddInvoiceResponse.r_hash resp)) w2 = (Ok inv, w') /\
    so = SentOffer.mk None (get_hash squeak) (AddInvoiceResponse.r_hash resp)
           (Util.add_tweak secret_key nonce) nonce price_msat
           (AddInvoiceResponse.payment_request resp)
           (Invoice.creation_date inv) (Invoice.expiry inv) peer_address.
Proof.
  unfold SqueakCore.create_offer, bind, ret.
  destruct (generate_tweak w) as [nonce w1] eqn:Et.
  destruct (add_invoice _ _ w1) as [[resp|e] w2] eqn:Ea; [|discriminate].
  destruct (lookup_invoice _ w2) as [[inv|e] w3] eqn:El; [|discriminate].
  intros H. inversion H; subst. eauto 10.
Qed.

Lemma package_offer_inv so ext w offer w' :
  SqueakCore.package_offer so ext w = (Ok offer, w') ->
  Offer.squeak_hash offer = SentOffer.squeak_hash so /\
  Offer.nonce offer = SentOffer.nonce so /\
  Offer.payment_request offer = SentOffer.payment_request so.
Proof.
  unfold SqueakCore.package_offer, bind, ret.
  destruct ext as [a|].
  - intros H. inversion H; subst. cbn. auto.
  - destruct (SqueakCore.get_lnd_external_address w) as [[a|e] w1];
      [|discriminate].
    intros H. inversion H; subst. cbn. auto.
Qed.

Lemma unpack_offer_inv squeak offer peer_address w ro w' :
  SqueakCore.unpack_offer squeak offer peer_address w = (Ok ro, w') ->
  exists pay_req payment_hash,
    get_hash squeak = Offer.squeak_hash offer /\
    decode_pay_req (Offer.payment_request offer) w = (Ok pay_req, w') /\
    fromhex (PayReq.payment_hash pay_req) = Some payment_hash /\
    ro = ReceivedOffer.mk None (get_hash squeak) (PayReq.num_msat pay_req)
           payment_hash (Offer.nonce offer) (paymentPoint squeak)
           (PayReq.timestamp pay_req) (PayReq.expiry pay_req)
           (Offer.payment_request offer) (PayReq.destination pay_req)
           (LightningAddressHostPort.mk
              (SqueakCore.str_or (Offer.host offer)
                 (PeerAddress.host peer_address))
              (Offer.port offer))
           peer_address.
Proof.
  unfold SqueakCore.unpack_offer, bind, ret, raise, lift.
  destruct (bytes_eqb _ _) eqn:Eh; cbn [negb]; [|discriminate].
  apply bytes_eqb_eq in Eh.
  destruct (decode_pay_req _ w) as [[pay_req|e] w1] eqn:Ed; [|discriminate].
  destruct (fromhex _) as [h|] eqn:Ef; [|discriminate].
  intros H. inversion H; subst. eauto 10.
Qed.

Lemma unpack_offer_ok squeak offer peer_address w pay_req w' payment_hash :
  get_hash squeak = Offer.squeak_hash offer ->
  decode_pay_req (Offer.payment_request offer) w = (Ok pay_req, w') ->
  fromhex (PayReq.payment_hash pay_req) = Some payment_hash ->
  SqueakCore.unpack_offer squeak offer peer_address w
  = (Ok (ReceivedOffer.mk None (get_hash squeak) (PayReq.num_msat pay_req)
           payment_hash (Offer.nonce offer) (paymentPoint squeak)
           (PayReq.timestamp pay_req) (PayReq.expiry pay_req)
           (Offer.payment_request offer) (PayReq.destination pay_req)
           (LightningAddressHostPort.mk
              (SqueakCore.str_or (Offer.host offer)
                 (PeerAddress.host peer_address))
              (Offer.port offer))
           peer_address), w').
Proof.
  intros Hh Hd Hf.
  unfold SqueakCore.unpack_offer, bind, ret, raise, lift.
  rewrite Hh, bytes_eqb_refl. cbn [negb]. rewrite Hd, Hf. reflexivity.
Qed.

(** [pay_offer] after [pay_invoice_sync] has answered. *)
Lemma pay_offer_paid ro w payment w' :
  pay_invoice_sync (ReceivedOffer.payment_request ro) w = (Ok payment, w') ->
  SendResponse.payment_preimage payment <> [] ->
  SqueakCore.pay_offer ro w
  = (Ok (SentPayment.mk None None
           (PeerAddress.mk (PeerAddress.host (ReceivedOffer.peer_address ro))
              (PeerAddress.port (ReceivedOffer.peer_address ro)))
           (ReceivedOffer.squeak_hash ro) (ReceivedOffer.payment_hash ro)
           (Util.subtract_tweak (SendResponse.payment_preimage payment)
              (ReceivedOffer.nonce ro))
           (ReceivedOffer.price_msat ro) (ReceivedOffer.destination ro)
           (bytes_eqb
              (payment_point_bytes_from_scalar_bytes
                 (Util.subtract_tweak (SendResponse.payment_preimage payment)
                    (ReceivedOffer.nonce ro)))
              (ReceivedOffer.payment_point ro))), w').
Proof.
  intros Hp Hne. unfold SqueakCore.pay_offer, bind, ret, raise. rewrite Hp.
  destruct (SendResponse.payment_preimage payment); [congruence|reflexivity].
Qed.

Lemma pay_offer_unpaid ro w payment w' :
  pay_invoice_sync (ReceivedOffer.payment_request ro) w = (Ok payment, w') ->
  SendResponse.payment_preimage payment = [] ->
  SqueakCore.pay_offer ro w
  = (Raise (PaymentFailed (SendResponse.payment_error payment)), w').
Proof.
  intros Hp He. unfold SqueakCore.pay_offer, bind, ret, raise.
  rewrite Hp, He. reflexivity.
Qed.

Lemma pay_offer_inv ro w sp w' :
  SqueakCore.pay_offer ro w = (Ok sp, w') ->
  exists payment,
    pay_invoice_sync (ReceivedOffer.payment_request ro) w = (Ok payment, w') /\
    SendResponse.payment_preimage payment <> [].
Proof.
  unfold SqueakCore.pay_offer, bind, ret, raise.
  destruct (pay_invoice_sync _ w) as [[payment|e] w1] eqn:Ep; [|discriminate].
  destruct (SendResponse.payment_preimage payment) eqn:Epre; [discriminate|].
  intros H. inversion H; subst. exists payment. rewrite Epre. split; congruence.
Qed.

End SqueakCoreFacts.

(* ================================================================== *)
(** * The sale: create_offer, package_offer, unpack_offer, pay_offer *)

(** C1 (key-recovery law).  The seller runs [create_offer] on a squeak and its
    secret key, a 32-byte scalar in range whose point is the squeak's payment
    point; the offer stores [add_tweak secret_key nonce] as its preimage.
    Over a Lightning network that reveals the invoice's preimage on
    settlement, whenever the buyer's [pay_offer] on
    [unpack_offer (package_offer sent_offer)] returns a [SentPayment], its
    [secret_key] is the seller's secret key and its [valid] flag is true.  The
    proof rests on [subtract_tweak (add_tweak a t) t = a] for scalars in
    range. *)
Theorem key_recovery_law {W : Type} {lib : SqueakLib} {py : Builtins}
    {rt : Runtime W} (seller buyer : LightningClient W)
    (squeak : CSqueak) (secret_key : bytes) (buyer_address : PeerAddress.t)
    (price_msat : Z) (w0 w1 : W) (sent_offer : SentOffer.t)
    (lnd_external_address : option LightningAddressHostPort.t)
    (w2 w3 : W) (offer : Offer.t)
    (seller_address : PeerAddress.t) (w4 w5 : W)
    (received_offer : ReceivedOffer.t) (w6 w7 : W)
    (sent_payment : SentPayment.t) :
  settlement_reveals_preimage seller buyer ->
  Util.in_range secret_key ->
  paymentPoint squeak = payment_point_bytes_from_scalar_bytes secret_key ->
  SqueakCore.create_offer (lightning_client := seller)
    squeak secret_key buyer_address price_msat w0 = (Ok sent_offer, w1) ->
  SqueakCore.package_offer (lightning_client := seller)
    sent_offer lnd_external_address w2 = (Ok offer, w3) ->
  SqueakCore.unpack_offer (lightning_client := buyer)
    squeak offer seller_address w4 = (Ok received_offer, w5) ->
  SqueakCore.pay_offer (lightning_client := buyer) received_offer w6
  = (Ok sent_payment, w7) ->
  SentOffer.secret_key sent_offer
  = Util.add_tweak secret_key (SentOffer.nonce sent_offer) /\
  (forall a t, Util.in_range a ->
     Util.subtract_tweak (Util.add_tweak a t) t = a) /\
  SentPayment.secret_key sent_payment = secret_key /\
  SentPayment.valid sent_payment = true.
Proof.
  intros Hln Hrange Hpoint Hcreate Hpackage Hunpack Hpay.
  apply create_offer_inv in Hcreate
    as (nonce & wa & resp & wb & inv & _ & Hadd & _ & ->).
  apply package_offer_inv in Hpackage as (_ & Hnonce & Hreq).
  apply unpack_offer_inv in Hunpack as (pay_req & ph & _ & _ & _ & ->).
  cbn [SentOffer.secret_key SentOffer.nonce SentOffer.payment_request] in *.
  destruct (pay_offer_inv _ _ _ _ Hpay) as (payment & Hsync & Hne).
  rewrite (pay_offer_paid _ _ _ _ Hsync Hne) in Hpay.
  cbn [ReceivedOffer.payment_request ReceivedOffer.nonce] in Hsync.
  rewrite Hreq in Hsync.
  pose proof (Hln _ _ _ _ _ _ _ _ Hadd Hsync Hne) as Hpre.
  inversion Hpay; subst sent_payment; clear Hpay.
  cbn [SentPayment.secret_key SentPayment.valid ReceivedOffer.nonce
       ReceivedOffer.payment_point].
  rewrite Hpre, Hnonce, (tweak_round_trip _ _ Hrange), Hpoint.
  repeat split; try reflexivity.
  - exact tweak_round_trip.
  - apply bytes_eqb_refl.
Qed.

Section SqueakCoreClaims.
Context {W : Type} {lib : SqueakLib} {py : Builtins} {rt : Runtime W}.
Context {bitcoin_client : BitcoinClient W}.
Context {lightning_client : LightningClient W}.

(** C2 (hash binding).  When the offer's squeak hash differs from the hash of
    the squeak, [unpack_offer] raises the hash-mismatch exception and leaves
    the world as it found it: whatever the Lightning client is, no
    [decode_pay_req] call reaches it, and no [ReceivedOffer] is returned. *)
Theorem unpack_offer_hash_binding (squeak : CSqueak) (offer : Offer.t)
    (peer_address : PeerAddress.t) (w : W) :
  Offer.squeak_hash offer <> get_hash squeak ->
  SqueakCore.unpack_offer squeak offer peer_address w
  = (Raise (OfferHashMismatch (Offer.squeak_hash offer) (get_hash squeak)), w).
Proof.
  intros Hne. unfold SqueakCore.unpack_offer, raise.
  rewrite bytes_eqb_neq by congruence. reflexivity.
Qed.

(** C3.  Once [pay_invoice_sync] has answered, [pay_offer] raises
    [PaymentFailed], with the answer's [payment_error], exactly when the
    answer's [payment_preimage] is empty, and then returns no [SentPayment].
    With a non-empty preimage it returns a [SentPayment] whose key is
    [subtract_tweak preimage nonce] and whose [valid] flag says whether the
    point of that key is the expected payment point: true or false, the
    record is returned. *)
Theorem pay_offer_payment_failed_iff (received_offer : ReceivedOffer.t)
    (w w' : W) (payment : SendResponse.t) :
  pay_invoice_sync (ReceivedOffer.payment_request received_offer) w
  = (Ok payment, w') ->
  let preimage := SendResponse.payment_preimage payment in
  let secret_key :=
    Util.subtract_tweak preimage (ReceivedOffer.nonce received_offer) in
  ((exists msg,
      fst (SqueakCore.pay_offer received_offer w) = Raise (PaymentFailed msg))
   <-> preimage = []) /\
  (preimage = [] ->
   SqueakCore.pay_offer received_offer w
   = (Raise (PaymentFailed (SendResponse.payment_error payment)), w')) /\
  (preimage <> [] ->
   exists sent_payment,
     SqueakCore.pay_offer received_offer w = (Ok sent_payment, w') /\
     SentPayment.secret_key sent_payment = secret_key /\
     SentPayment.valid sent_payment
     = bytes_eqb (payment_point_bytes_from_scalar_bytes secret_key)
         (ReceivedOffer.payment_point received_offer)).
Proof.
  intros Hp preimage secret_key. split; [split|split].
  - intros [msg Hraise]. destruct preimage eqn:E; [reflexivity|].
    assert (Hne : SendResponse.payment_preimage payment <> []).
    { fold preimage. rewrite E. discriminate. }
    rewrite (pay_offer_paid _ _ _ _ Hp Hne) in Hraise. discriminate.
  - intros He. rewrite (pay_offer_unpaid _ _ _ _ Hp He). cbn. eauto.
  - apply pay_offer_unpaid; assumption.
  - intros Hne. rewrite (pay_offer_paid _ _ _ _ Hp Hne).
    eexists. split; [reflexivity|]. split; reflexivity.
Qed.

(** C4.  [make_squeak] with a profile whose [private_key] is [None] raises
    [ProfileNotSigning] and leaves the world as it found it: no call reaches
    the Bitcoin client and no squeak is returned.  With a private key that
    makes a signing key, it asks the Bitcoin client for the best block, reads
    the clock, and returns what [MakeSqueakFromStr] makes of that block's
    height and hash and of the time in whole seconds. *)
Theorem make_squeak_requires_signing_profile (signing_profile : SqueakProfile.t)
    (content_str : string) (replyto_hash : option bytes) (w : W) :
  (SqueakProfile.private_key signing_profile = None ->
   SqueakCore.make_squeak signing_profile content_str replyto_hash w
   = (Raise ProfileNotSigning, w)) /\
  (forall private_key signing_key_str signing_key block_info w',
     SqueakProfile.private_key signing_profile = Some private_key ->
     bytes_decode private_key = Ok signing_key_str ->
     new_CSigningKey signing_key_str = Ok signing_key ->
     get_best_block_info w = (Ok block_info, w') ->
     SqueakCore.make_squeak signing_profile content_str replyto_hash w
     = (MakeSqueakFromStr signing_key content_str
          (BlockInfo.block_height block_info)
          (BlockInfo.block_hash block_info)
          (int_of_float (time_time w')) replyto_hash, w')).
Proof.
  unfold SqueakCore.make_squeak. split.
  - intros ->. reflexivity.
  - intros pk s k bi w' -> Hd Hk Hb.
    unfold bind, lift. rewrite Hd, Hk, Hb. reflexivity.
Qed.

(** C5 (external-address fallback).  Called without an external address when
    [get_info().uris] is empty, [package_offer] returns an offer with host ""
    and port 0.  And [unpack_offer], when the hash matches and the payment
    request decodes, returns a [ReceivedOffer] (and never another one) whose
    lightning address has the offer's host if that is not empty, the peer
    address's host otherwise, and the offer's port. *)
Theorem external_address_fallback :
  (forall sent_offer w info w',
     get_info w = (Ok info, w') ->
     GetInfoResponse.uris info = [] ->
     exists offer,
       SqueakCore.package_offer sent_offer None w = (Ok offer, w') /\
       Offer.host offer = EmptyString /\ Offer.port offer = 0) /\
  (forall squeak offer peer_address w pay_req w' payment_hash,
     get_hash squeak = Offer.squeak_hash offer ->
     decode_pay_req (Offer.payment_request offer) w = (Ok pay_req, w') ->
     fromhex (PayReq.payment_hash pay_req) = Some payment_hash ->
     exists received_offer,
       SqueakCore.unpack_offer squeak offer peer_address w
       = (Ok received_offer, w')) /\
  (forall squeak offer peer_address w received_offer w',
     SqueakCore.unpack_offer squeak offer peer_address w
     = (Ok received_offer, w') ->
     let address := ReceivedOffer.lightning_address received_offer in
     (Offer.host offer <> EmptyString ->
      LightningAddressHostPort.host address = Offer.host offer) /\
     (Offer.host offer = EmptyString ->
      LightningAddressHostPort.host address = PeerAddress.host peer_address) /\
     LightningAddressHostPort.port address = Offer.port offer).
Proof.
  split; [|split].
  - intros so w info w' Hi Hu.
    unfold SqueakCore.package_offer, SqueakCore.get_lnd_external_address,
      bind, ret.
    rewrite Hi, Hu. eexists. split; [reflexivity|]. split; reflexivity.
  - intros squeak offer peer w pay_req w' h Hh Hd Hf.
    eexists. eapply unpack_offer_ok; eassumption.
  - intros squeak offer peer w ro w' Hu.
    apply unpack_offer_inv in Hu as (pay_req & h & _ & _ & _ & ->).
    cbn. destruct (Offer.host offer); cbn; repeat split; congruence.
Qed.

End SqueakCoreClaims.

(* ================================================================== *)
(** * The received-payments generator *)

Section ReceivedPayments.
Variable get_sent_offer_fn : bytes -> SentOffer.t.

Lemma consume_skip fuel invoice rest end_ :
  Invoice.settled invoice = false ->
  SqueakCore.consume (S fuel) (SqueakCore.Suspended get_sent_offer_fn (invoice :: rest) end_)
  = SqueakCore.consume (S fuel) (SqueakCore.Suspended get_sent_offer_fn rest end_).
Proof.
  intros Hs. cbn [SqueakCore.consume SqueakCore.next SqueakCore.resume].
  rewrite Hs. reflexivity.
Qed.

Lemma consume_yield fuel invoice rest end_ :
  Invoice.settled invoice = true ->
  SqueakCore.consume (S fuel) (SqueakCore.Suspended get_sent_offer_fn (invoice :: rest) end_)
  = (SqueakCore.received_payment get_sent_offer_fn invoice
       :: fst (SqueakCore.consume fuel (SqueakCore.Suspended get_sent_offer_fn rest end_)),
     snd (SqueakCore.consume fuel (SqueakCore.Suspended get_sent_offer_fn rest end_))).
Proof.
  intros Hs. cbn [SqueakCore.consume SqueakCore.next SqueakCore.resume].
  rewrite Hs. destruct (SqueakCore.consume fuel _). reflexivity.
Qed.

Lemma consume_payments invoices end_ : forall fuel,
  (List.length invoices < fuel)%nat ->
  fst (SqueakCore.consume fuel (SqueakCore.Suspended get_sent_offer_fn invoices end_))
  = map (SqueakCore.received_payment get_sent_offer_fn)
      (filter Invoice.settled invoices).
Proof.
  induction invoices as [|invoice rest IH]; intros [|fuel] Hf;
    try (cbn in Hf; lia).
  - cbn. destruct end_ as [|[]]; try reflexivity.
    destruct (negb _); reflexivity.
  - cbn [List.length] in Hf. cbn [filter].
    destruct (Invoice.settled invoice) eqn:Hs.
    + rewrite consume_yield by assumption. cbn [fst map].
      rewrite IH by lia. reflexivity.
    + rewrite consume_skip by assumption. apply IH. cbn. lia.
Qed.

Lemma consume_finish invoices end_ : forall fuel,
  (List.length invoices < fuel)%nat ->
  snd (SqueakCore.consume fuel (SqueakCore.Suspended get_sent_offer_fn invoices end_))
  = snd (SqueakCore.consume 1 (SqueakCore.Suspended get_sent_offer_fn [] end_)).
Proof.
  induction invoices as [|invoice rest IH]; intros [|fuel] Hf;
    try (cbn in Hf; lia).
  - cbn. destruct end_ as [|[]]; try reflexivity.
    destruct (negb _); reflexivity.
  - cbn [List.length] in Hf.
    destruct (Invoice.settled invoice) eqn:Hs.
    + rewrite consume_yield by assumption. cbn [snd]. apply IH. lia.
    + rewrite consume_skip by assumption. apply IH. cbn. lia.
Qed.

End ReceivedPayments.

(** C8.  [get_received_payments] subscribes at [latest_settle_index] and
    returns a generator over the stream it got.  A consumer that runs the
    generator to its end is given one [ReceivedPayment] for each settled
    invoice of the stream, in order, and none for the others; each carries the
    squeak hash, payment hash, price and peer address of
    [get_sent_offer_fn r_hash] and the invoice's settle index.  The iteration
    returns when the stream ends or is cancelled, and raises
    [InvoiceSubscriptionError] when the stream fails with an [RpcError] of
    any other code. *)
Theorem received_payments_of_settled_invoices {W : Type}
    {lightning_client : LightningClient W} (latest_settle_index : Z)
    (get_sent_offer_fn : bytes -> SentOffer.t) (w w' : W)
    (invoice_stream : InvoiceStream.t) :
  subscribe_invoices latest_settle_index w = (Ok invoice_stream, w') ->
  exists result_stream,
    SqueakCore.get_received_payments latest_settle_index get_sent_offer_fn w
    = (Ok result_stream, w') /\
    forall fuel,
      (List.length (InvoiceStream.invoices invoice_stream) < fuel)%nat ->
      let run := SqueakCore.consume fuel result_stream in
      Forall2
        (fun invoice payment =>
           let sent_offer := get_sent_offer_fn (Invoice.r_hash invoice) in
           ReceivedPayment.squeak_hash payment
           = SentOffer.squeak_hash sent_offer /\
           ReceivedPayment.payment_hash payment
           = SentOffer.payment_hash sent_offer /\
           ReceivedPayment.price_msat payment
           = SentOffer.price_msat sent_offer /\
           ReceivedPayment.peer_address payment
           = SentOffer.peer_address sent_offer /\
           ReceivedPayment.settle_index payment
           = Invoice.settle_index invoice)
        (filter Invoice.settled (InvoiceStream.invoices invoice_stream))
        (fst run) /\
      (InvoiceStream.end_ invoice_stream = InvoiceStream.Exhausted ->
       snd run = Some SqueakCore.Returned) /\
      (InvoiceStream.end_ invoice_stream
       = InvoiceStream.Failed (RpcError CANCELLED) ->
       snd run = Some SqueakCore.Returned) /\
      (forall code,
         code <> CANCELLED ->
         InvoiceStream.end_ invoice_stream
         = InvoiceStream.Failed (RpcError code) ->
         snd run = Some (SqueakCore.Thrown InvoiceSubscriptionError)).
Proof.
  intros Hs. unfold SqueakCore.get_received_payments, bind, ret. rewrite Hs.
  eexists. split; [reflexivity|]. intros fuel Hf.
  rewrite consume_payments, consume_finish by assumption.
  split; [|split; [|split]].
  - clear Hf Hs.
    induction (InvoiceStream.invoices invoice_stream) as [|i l IH]; cbn.
    + constructor.
    + destruct (Invoice.settled i); [|exact IH].
      cbn. constructor; [|exact IH].
      cbn. repeat split.
  - intros ->. reflexivity.
  - intros ->. reflexivity.
  - intros code Hc ->. destruct code; try reflexivity. congruence.
Qed.

(* ================================================================== *)
(** * The connection manager: the dict and the two checks *)

Section ConnectionManagerFacts.
Import ConnectionManager.

Lemma PeerAddress_eqb_eq a b : PeerAddress.eqb a b = true <-> a = b.
Proof.
  unfold PeerAddress.eqb. rewrite andb_true_iff, String.eqb_eq, Z.eqb_eq.
  destruct a, b; cbn. split.
  - intros [-> ->]. reflexivity.
  - intros H. inversion H. auto.
Qed.

Lemma dict_contains_In k d :
  dict_contains k d = true <-> In k (map fst d).
Proof.
  unfold dict_contains. rewrite existsb_exists, in_map_iff. split.
  - intros [kv [Hin He]]. apply PeerAddress_eqb_eq in He. eauto.
  - intros [kv [He Hin]]. exists kv. split; [assumption|].
    apply PeerAddress_eqb_eq. congruence.
Qed.

Lemma dict_contains_not_In k d :
  dict_contains k d = false <-> ~ In k (map fst d).
Proof.
  rewrite <- dict_contains_In. destruct (dict_contains k d); split; congruence.
Qed.

Lemma dict_set_fresh k v d :
  ~ In k (map fst d) -> dict_set k v d = d ++ [(k, v)].
Proof.
  induction d as [|[k' v'] d IH]; cbn; intros Hn; [reflexivity|].
  destruct (PeerAddress.eqb k k') eqn:E.
  - apply PeerAddress_eqb_eq in E. subst. tauto.
  - rewrite IH by tauto. reflexivity.
Qed.

Lemma dict_del_present k d :
  In k (map fst d) ->
  exists l1 v l2,
    d = l1 ++ (k, v) :: l2 /\ dict_del k d = Some (l1 ++ l2) /\
    ~ In k (map fst l1).
Proof.
  induction d as [|[k' v'] d IH]; cbn; intros Hin; [contradiction|].
  destruct (PeerAddress.eqb k k') eqn:E.
  - apply PeerAddress_eqb_eq in E. subst k'.
    exists [], v', d. cbn. auto.
  - destruct Hin as [->|Hin].
    + assert (PeerAddress.eqb k k = true) by (apply PeerAddress_eqb_eq; auto).
      congruence.
    + destruct (IH Hin) as (l1 & v & l2 & -> & Hdel & Hn).
      exists ((k', v') :: l1), v, l2. rewrite Hdel. cbn.
      repeat split; auto. intros [->|H]; [|tauto].
      assert (PeerAddress.eqb k k = true) by (apply PeerAddress_eqb_eq; auto).
      congruence.
Qed.

Lemma is_duplicate_nonce_loop_true peer others :
  is_duplicate_nonce_loop peer others = true <->
  exists other_peer, In other_peer others /\ nonce_related other_peer peer.
Proof.
  unfold nonce_related. induction others as [|o rest IH]; cbn.
  - split; [discriminate|]. intros (q & [] & _).
  - destruct (Peer.local_version o) as [v|] eqn:Ev.
    + destruct (Peer.remote_version peer =? Version.nNonce v) eqn:En.
      * apply Z.eqb_eq in En. split; [|reflexivity].
        intros _. exists o. eauto.
      * apply Z.eqb_neq in En. rewrite IH. split.
        -- intros (q & Hq & Hr). eauto.
        -- intros (q & [->|Hq] & v' & Hv & Hr); [|eauto].
           congruence.
    + rewrite IH. split.
      * intros (q & Hq & Hr). eauto.
      * intros (q & [->|Hq] & v' & Hv & Hr); [congruence|eauto].
Qed.

Lemma is_duplicate_nonce_loop_false peer others :
  is_duplicate_nonce_loop peer others = false <->
  Forall (fun other_peer => ~ nonce_related other_peer peer) others.
Proof.
  rewrite Forall_forall.
  destruct (is_duplicate_nonce_loop peer others) eqn:E.
  - apply is_duplicate_nonce_loop_true in E as (q & Hq & Hr).
    split; [discriminate|]. intros H. exfalso. exact (H q Hq Hr).
  - split; [|reflexivity]. intros _ q Hq Hr.
    assert (is_duplicate_nonce_loop peer others = true)
      by (apply is_duplicate_nonce_loop_true; eauto).
    congruence.
Qed.

(** The three ways [add_peer] can go. *)
Lemma add_peer_duplicate_nonce peer self :
  (exists q, In q (peers self) /\ nonce_related q peer) ->
  add_peer peer self = (Raise DuplicateNonceError, self).
Proof.
  intros H. apply is_duplicate_nonce_loop_true in H.
  unfold add_peer, _is_duplicate_nonce. rewrite H. reflexivity.
Qed.

Lemma add_peer_duplicate_peer peer self :
  Forall (fun q => ~ nonce_related q peer) (peers self) ->
  In (Peer.address peer) (map fst (_peers self)) ->
  add_peer peer self = (Raise DuplicatePeerError, self).
Proof.
  intros Hn Hin. apply is_duplicate_nonce_loop_false in Hn.
  apply dict_contains_In in Hin.
  unfold add_peer, _is_duplicate_nonce, has_connection.
  rewrite Hn, Hin. reflexivity.
Qed.

Lemma add_peer_inserts peer self :
  Forall (fun q => ~ nonce_related q peer) (peers self) ->
  ~ In (Peer.address peer) (map fst (_peers self)) ->
  add_peer peer self
  = on_peers_changed
      (mk (_peers self ++ [(Peer.address peer, peer)])
         (peers_changed_callback self)).
Proof.
  intros Hn Hin. apply is_duplicate_nonce_loop_false in Hn.
  rewrite <- (dict_set_fresh _ peer _ Hin).
  apply dict_contains_not_In in Hin.
  unfold add_peer, _is_duplicate_nonce, has_connection.
  rewrite Hn, Hin. reflexivity.
Qed.

Lemma nonce_check_cases peer self :
  (exists q, In q (peers self) /\ nonce_related q peer) \/
  Forall (fun q => ~ nonce_related q peer) (peers self).
Proof.
  destruct (is_duplicate_nonce_loop peer (peers self)) eqn:E.
  - left. apply is_duplicate_nonce_loop_true. assumption.
  - right. apply is_duplicate_nonce_loop_false. assumption.
Qed.

Lemma remove_peer_missing peer self :
  ~ In (Peer.address peer) (map fst (_peers self)) ->
  remove_peer peer self = (Raise MissingPeerError, self).
Proof.
  intros Hn. apply dict_contains_not_In in Hn.
  unfold remove_peer, has_connection. rewrite Hn. reflexivity.
Qed.

Lemma remove_peer_present peer self :
  In (Peer.address peer) (map fst (_peers self)) ->
  exists l1 v l2,
    _peers self = l1 ++ (Peer.address peer, v) :: l2 /\
    ~ In (Peer.address peer) (map fst l1) /\
    remove_peer peer self
    = on_peers_changed (mk (l1 ++ l2) (peers_changed_callback self)).
Proof.
  intros Hin. destruct (dict_del_present _ _ Hin) as (l1 & v & l2 & E & Hd & Hn).
  exists l1, v, l2. repeat split; try assumption.
  apply dict_contains_In in Hin.
  unfold remove_peer, has_connection. rewrite Hin, Hd. reflexivity.
Qed.

End ConnectionManagerFacts.

(* ================================================================== *)
(** * The connection manager: add_peer and remove_peer *)

Section ConnectionManagerClaims.
Import ConnectionManager.

(** C6 (duplicate detection).  If a registered peer's local version carries
    the nonce that [peer] reports as its remote version, [add_peer] raises
    [DuplicateNonceError] and the manager is as before.  Otherwise, if the
    peer's address is a key of the map, it raises [DuplicatePeerError] and the
    manager is as before.  Otherwise the peer is put in the map, at the end,
    under its address.  So the map changes only when neither check fires. *)
Theorem add_peer_duplicate_detection (peer : Peer.t) (self : t) :
  ((exists q, In q (peers self) /\ nonce_related q peer) ->
   add_peer peer self = (Raise DuplicateNonceError, self)) /\
  (~ (exists q, In q (peers self) /\ nonce_related q peer) ->
   In (Peer.address peer) (map fst (_peers self)) ->
   add_peer peer self = (Raise DuplicatePeerError, self)) /\
  (~ (exists q, In q (peers self) /\ nonce_related q peer) ->
   ~ In (Peer.address peer) (map fst (_peers self)) ->
   _peers (snd (add_peer peer self))
   = _peers self ++ [(Peer.address peer, peer)] /\
   (peers_changed_callback self = None ->
    fst (add_peer peer self) = Ok tt)) /\
  (_peers (snd (add_peer peer self)) <> _peers self ->
   ~ (exists q, In q (peers self) /\ nonce_related q peer) /\
   ~ In (Peer.address peer) (map fst (_peers self))).
Proof.
  assert (Hforall : ~ (exists q, In q (peers self) /\ nonce_related q peer) ->
                    Forall (fun q => ~ nonce_related q peer) (peers self)).
  { intros Hn. destruct (nonce_check_cases peer self); tauto. }
  split; [|split; [|split]].
  - apply add_peer_duplicate_nonce.
  - intros Hn Hin. apply add_peer_duplicate_peer; auto.
  - intros Hn Hin. rewrite add_peer_inserts by auto.
    unfold on_peers_changed. cbn [peers_changed_callback].
    destruct (peers_changed_callback self); split; try reflexivity.
    discriminate.
  - intros Hchanged.
    destruct (nonce_check_cases peer self) as [Hd|Hf].
    + rewrite add_peer_duplicate_nonce in Hchanged by assumption.
      cbn in Hchanged. congruence.
    + split.
      * intros (q & Hq & Hr). rewrite Forall_forall in Hf.
        exact (Hf q Hq Hr).
      * intros Hin.
        rewrite add_peer_duplicate_peer in Hchanged by assumption.
        cbn in Hchanged. congruence.
Qed.

(** C10.  The nonce check reads only registered peers whose [local_version]
    is set.  When every registered peer has [local_version = None], the check
    answers false and [add_peer] does not raise [DuplicateNonceError],
    whatever the new peer's [remote_version] is. *)
Theorem add_peer_ignores_unversioned_peers (peer : Peer.t) (self : t) :
  (forall q, In q (peers self) -> Peer.local_version q = None) ->
  _is_duplicate_nonce self peer = false /\
  fst (add_peer peer self) <> Raise DuplicateNonceError.
Proof.
  intros Hnone.
  assert (Hf : Forall (fun q => ~ nonce_related q peer) (peers self)).
  { apply Forall_forall. intros q Hq (v & Hv & _).
    rewrite (Hnone q Hq) in Hv. discriminate. }
  split.
  - apply is_duplicate_nonce_loop_false. assumption.
  - apply is_duplicate_nonce_loop_false in Hf.
    unfold add_peer, _is_duplicate_nonce. rewrite Hf.
    destruct (has_connection self (Peer.address peer)); [discriminate|].
    unfold on_peers_changed. cbn [peers_changed_callback].
    destruct (peers_changed_callback self); discriminate.
Qed.

End ConnectionManagerClaims.

(* ================================================================== *)
(** * The connection manager: sequences of calls *)

Section ConnectionManagerRuns.
Import ConnectionManager.

Lemma ForallOrdPairs_snoc {A} (R : A -> A -> Prop) l x :
  ForallOrdPairs R l -> Forall (fun y => R y x) l ->
  ForallOrdPairs R (l ++ [x]).
Proof.
  induction 1 as [|a l Ha Hl IH]; intros Hx; cbn.
  - constructor; constructor.
  - inversion Hx; subst. constructor.
    + apply Forall_app. split; [assumption|]. constructor; auto.
    + apply IH. assumption.
Qed.

Lemma ForallOrdPairs_remove {A} (R : A -> A -> Prop) l1 x l2 :
  ForallOrdPairs R (l1 ++ x :: l2) -> ForallOrdPairs R (l1 ++ l2).
Proof.
  induction l1 as [|a l1 IH]; cbn; intros H; inversion H; subst.
  - assumption.
  - constructor.
    + rewrite Forall_app in *. destruct H2 as [H1 Hx].
      inversion Hx; subst. auto.
    + apply IH. assumption.
Qed.

Lemma consistent_init : consistent init.
Proof. split; cbn; constructor. Qed.

Lemma add_peer_consistent peer self :
  consistent self -> consistent (snd (add_peer peer self)).
Proof.
  intros [Hc Hk Hd Hn].
  destruct (nonce_check_cases peer self) as [Hdup|Hf].
  { rewrite add_peer_duplicate_nonce by assumption. split; assumption. }
  destruct (dict_contains (Peer.address peer) (_peers self)) eqn:E.
  { apply dict_contains_In in E.
    rewrite add_peer_duplicate_peer by assumption. split; assumption. }
  apply dict_contains_not_In in E.
  rewrite add_peer_inserts by assumption.
  unfold on_peers_changed. cbn [peers_changed_callback]. rewrite Hc. cbn [snd].
  split; cbn [_peers peers_changed_callback].
  - reflexivity.
  - apply Forall_app. split; [assumption|]. constructor; [reflexivity|constructor].
  - rewrite map_app. cbn.
    rewrite <- (rev_involutive (map fst (_peers self) ++ [Peer.address peer])).
    apply NoDup_rev. rewrite rev_app_distr. cbn. constructor.
    + rewrite <- in_rev. assumption.
    + apply NoDup_rev. assumption.
  - unfold peers. cbn [_peers]. rewrite map_app. cbn.
    apply ForallOrdPairs_snoc; assumption.
Qed.

Lemma remove_peer_consistent peer self :
  consistent self -> consistent (snd (remove_peer peer self)).
Proof.
  intros [Hc Hk Hd Hn].
  destruct (dict_contains (Peer.address peer) (_peers self)) eqn:E.
  - apply dict_contains_In in E.
    destruct (remove_peer_present _ _ E) as (l1 & v & l2 & Hp & _ & ->).
    unfold on_peers_changed. cbn [peers_changed_callback]. rewrite Hc. cbn [snd].
    unfold peers in Hn. rewrite Hp in *.
    split; cbn [_peers peers_changed_callback].
    + reflexivity.
    + rewrite Forall_app in *. destruct Hk as [H1 H2].
      inversion H2; subst. auto.
    + rewrite map_app in *. cbn in Hd. eapply NoDup_remove_1. eassumption.
    + unfold peers. cbn [_peers]. rewrite map_app in *. cbn in Hn.
      eapply ForallOrdPairs_remove. eassumption.
  - apply dict_contains_not_In in E.
    rewrite remove_peer_missing by assumption. split; assumption.
Qed.

Lemma run_call_consistent c self :
  consistent self -> consistent (snd (run_call c self)).
Proof.
  destruct c; [apply add_peer_consistent|apply remove_peer_consistent].
Qed.

Lemma run_calls_cons c calls self :
  run_calls (c :: calls) self = run_calls calls (snd (run_call c self)).
Proof. reflexivity. Qed.

Lemma run_calls_consistent calls : forall self,
  consistent self -> consistent (run_calls calls self).
Proof.
  induction calls as [|c calls IH]; intros self H; [assumption|].
  rewrite run_calls_cons. apply IH, run_call_consistent, H.
Qed.

(** What one call does to the entries of a consistent manager. *)
Lemma run_call_entries c self a p :
  consistent self ->
  In (a, p) (_peers (snd (run_call c self))) <->
  (In (a, p) (_peers self) /\
   forall q, c = RemovePeer q -> Peer.address q <> a) \/
  (c = AddPeer p /\ a = Peer.address p /\ fst (add_peer p self) = Ok tt).
Proof.
  intros [Hc Hk Hd Hn]. destruct c as [peer|peer]; cbn [run_call].
  - destruct (nonce_check_cases peer self) as [Hdup|Hf].
    { rewrite add_peer_duplicate_nonce by assumption. cbn [snd]. split.
      - intros H. left. split; [assumption|discriminate].
      - intros [[H _]|(E & _ & Hok)]; [assumption|].
        inversion E; subst.
        rewrite add_peer_duplicate_nonce in Hok by assumption. discriminate. }
    destruct (dict_contains (Peer.address peer) (_peers self)) eqn:E.
    { apply dict_contains_In in E.
      rewrite add_peer_duplicate_peer by assumption. cbn [snd]. split.
      - intros H. left. split; [assumption|discriminate].
      - intros [[H _]|(E' & _ & Hok)]; [assumption|].
        inversion E'; subst.
        rewrite add_peer_duplicate_peer in Hok by assumption. discriminate. }
    apply dict_contains_not_In in E.
    rewrite add_peer_inserts by assumption.
    unfold on_peers_changed. cbn [peers_changed_callback]. rewrite Hc.
    cbn [snd _peers]. rewrite in_app_iff. cbn [In]. split.
    + intros [H|[H|[]]].
      * left. split; [assumption|discriminate].
      * inversion H; subst. right.
        rewrite add_peer_inserts by assumption.
        unfold on_peers_changed. cbn [peers_changed_callback]. rewrite Hc.
        auto.
    + intros [[H _]|(E' & -> & _)]; [auto|].
      inversion E'; subst. auto.
  - destruct (dict_contains (Peer.address peer) (_peers self)) eqn:E.
    + apply dict_contains_In in E.
      destruct (remove_peer_present _ _ E) as (l1 & v & l2 & Hp & Hn1 & ->).
      unfold on_peers_changed. cbn [peers_changed_callback]. rewrite Hc.
      cbn [snd _peers]. rewrite Hp in *. rewrite map_app in Hd. cbn in Hd.
      pose proof (NoDup_remove_2 _ _ _ Hd) as Hfresh.
      rewrite <- map_app in Hfresh.
      rewrite !in_app_iff. cbn [In]. split.
      * intros H. left. split; [tauto|].
        intros q Eq. inversion Eq; subst. intros <-.
        apply Hfresh. rewrite in_map_iff. exists (Peer.address q, p).
        rewrite in_app_iff. auto.
      * intros [[H Hq]|(Eq & _)]; [|discriminate].
        destruct H as [H|[H|H]]; auto.
        inversion H; subst. exfalso. exact (Hq peer eq_refl eq_refl).
    + apply dict_contains_not_In in E.
      rewrite remove_peer_missing by assumption. cbn [snd]. split.
      * intros H. left. split; [assumption|].
        intros q Eq. inversion Eq; subst. intros <-.
        apply E. rewrite in_map_iff. exists (Peer.address q, p). auto.
      * intros [[H _]|(Eq & _)]; [assumption|discriminate].
Qed.

(** The entries after a sequence of calls: those that were there and whose
    address no call removed, and those that a call added with success and
    whose address no later call removed. *)
Lemma run_calls_entries calls : forall self a p,
  consistent self ->
  In (a, p) (_peers (run_calls calls self)) <->
  (In (a, p) (_peers self) /\
   forall q, In (RemovePeer q) calls -> Peer.address q <> a) \/
  (exists before after,
     calls = before ++ AddPeer p :: after /\
     a = Peer.address p /\
     fst (add_peer p (run_calls before self)) = Ok tt /\
     forall q, In (RemovePeer q) after -> Peer.address q <> Peer.address p).
Proof.
  induction calls as [|c calls IH]; intros self a p Hcons.
  - cbn. split.
    + intros H. left. split; [assumption|contradiction].
    + intros [[H _]|(before & after & E & _)]; [assumption|].
      destruct before; discriminate.
  - rewrite run_calls_cons, IH by (apply run_call_consistent; assumption).
    rewrite run_call_entries by assumption. split.
    + intros [[[[H Hc]|(-> & -> & Hok)] Hrest]|(before & after & -> & -> & Hok & Hafter)].
      * left. split; [assumption|]. intros q [->|Hq]; auto.
      * right. exists [], calls. cbn. auto.
      * right. exists (c :: before), after. cbn. auto.
    + intros [[H Hq]|(before & after & E & -> & Hok & Hafter)].
      * left. split; [|intros q Hin; apply Hq; right; assumption].
        left. split; [assumption|]. intros q ->. apply Hq. left. reflexivity.
      * destruct before as [|c' before]; cbn in E; inversion E; subst.
        -- left. split; [|assumption]. right. auto.
        -- right. exists before, after. auto.
Qed.

End ConnectionManagerRuns.

Section ConnectionManagerInvariant.
Import ConnectionManager.

(** C7 (set invariant), as the code has it.  After any finite sequence of
    [add_peer] and [remove_peer] calls on a new manager:
    - the entries are exactly the peers that some call added with success
      and whose address no later call removed;
    - no two entries share an address;
    - no entry reports as its remote version the nonce in the local version
      of an entry registered before it (the check looks one way only: at the
      local versions of the peers already there);
    - [remove_peer] raises [MissingPeerError], changing nothing, exactly when
      the peer's address is not a key, and otherwise returns after deleting
      the entry under that address and no other. *)
Theorem connection_manager_set_invariant (calls : list call) :
  let self := run_calls calls init in
  (forall a p,
     In (a, p) (_peers self) <->
     exists before after,
       calls = before ++ AddPeer p :: after /\
       a = Peer.address p /\
       fst (add_peer p (run_calls before init)) = Ok tt /\
       forall q, In (RemovePeer q) after ->
                 Peer.address q <> Peer.address p) /\
  NoDup (map fst (_peers self)) /\
  ForallOrdPairs (fun q p => ~ nonce_related q p) (peers self) /\
  (forall peer,
     (fst (remove_peer peer self) = Raise MissingPeerError <->
      ~ In (Peer.address peer) (map fst (_peers self))) /\
     (~ In (Peer.address peer) (map fst (_peers self)) ->
      remove_peer peer self = (Raise MissingPeerError, self)) /\
     (In (Peer.address peer) (map fst (_peers self)) ->
      fst (remove_peer peer self) = Ok tt /\
      forall a q,
        In (a, q) (_peers (snd (remove_peer peer self))) <->
        In (a, q) (_peers self) /\ a <> Peer.address peer)).
Proof.
  intros self.
  assert (Hcons : consistent self)
    by (apply run_calls_consistent, consistent_init).
  split; [|split; [|split]].
  - intros a p. unfold self.
    rewrite run_calls_entries by apply consistent_init. cbn [_peers init In].
    split.
    + intros [[[] _]|H]. exact H.
    + intros H. right. exact H.
  - apply Hcons.
  - apply Hcons.
  - intros peer.
    assert (Hpresent : In (Peer.address peer) (map fst (_peers self)) ->
                       fst (remove_peer peer self) = Ok tt).
    { intros Hin.
      destruct (remove_peer_present _ _ Hin) as (l1 & v & l2 & _ & _ & ->).
      unfold on_peers_changed. cbn [peers_changed_callback].
      rewrite (no_callback _ Hcons). reflexivity. }
    split; [|split].
    + split.
      * intros Hraise Hin. rewrite (Hpresent Hin) in Hraise. discriminate.
      * intros Hn. rewrite remove_peer_missing by assumption. reflexivity.
    + apply remove_peer_missing.
    + intros Hin. split; [exact (Hpresent Hin)|]. intros a q.
      change (remove_peer peer self) with (run_call (RemovePeer peer) self).
      rewrite run_call_entries by assumption. split.
      * intros [[H Hq]|(E & _)]; [|discriminate].
        split; [assumption|]. intros ->. exact (Hq peer eq_refl eq_refl).
      * intros [H Hne]. left. split; [assumption|].
        intros q' E. inversion E; subst. congruence.
Qed.

(** C7 as stated fails: a peer registered later may carry, in its local
    version, the nonce that a peer registered before it reports as its remote
    version.  Both calls succeed and both peers stay in the map. *)
Lemma later_peer_may_carry_an_echoed_nonce :
  run_calls [AddPeer Scenario.inbound; AddPeer Scenario.late_outbound] init
  = mk [(Scenario.seller_address, Scenario.inbound);
        (Scenario.buyer_address, Scenario.late_outbound)] None /\
  fst (add_peer Scenario.late_outbound (snd (add_peer Scenario.inbound init)))
  = Ok tt /\
  nonce_related Scenario.late_outbound Scenario.inbound.
Proof.
  split; [reflexivity|]. split; [reflexivity|].
  exists (Version.mk 165). split; reflexivity.
Qed.

End ConnectionManagerInvariant.

(* ================================================================== *)
(** * The sent-offers verifier *)

Section VerifierClaims.
Context {W : Type} {rt : Runtime W}.
Context {squeak_db : SqueakDb W} {lightning_client : LightningClient W}.
Import SentOffersVerifier.

Lemma try_processing_inv w e w' :
  try_processing w = (Raise e, w') ->
  _get_latest_settle_index w = (Raise e, w').
Proof.
  unfold try_processing, bind, try_except.
  destruct (_get_latest_settle_index w) as [[idx|e0] w1];
    [|intros H; inversion H; reflexivity].
  destruct (subscribe_invoices (or_0 idx) w1) as [[s|e1] w2].
  - destruct (for_each_invoice _ _ w2) as [[[]|e2] w3]; discriminate.
  - discriminate.
Qed.

(** C9, as the code has it.  [process_subscribed_invoices] is
    [while True: self.try_processing()] and reads no stop signal:
    - as long as the read of the latest settle index answers, the loop is
      still running after any number of passes;
    - it is left only by an exception that this read, which stands outside
      the [try], raises;
    - whatever is raised inside the [try] is answered by a full
      [time.sleep(LND_CONNECT_RETRY_S)], ten seconds, after which the pass
      returns. *)
Theorem verifier_loop_never_returns :
  ((forall w, exists idx w', _get_latest_settle_index w = (Ok idx, w')) ->
   forall passes w, fst (process_subscribed_invoices passes w) = Looping) /\
  (forall passes w e,
     fst (process_subscribed_invoices passes w) = Escaped e ->
     exists w0 w1, _get_latest_settle_index w0 = (Raise e, w1)) /\
  (forall w idx w1 e w2,
     _get_latest_settle_index w = (Ok idx, w1) ->
     bind (subscribe_invoices (or_0 idx))
       (fun s => for_each_invoice (InvoiceStream.invoices s)
                   (InvoiceStream.end_ s)) w1 = (Raise e, w2) ->
     try_processing w = (Ok tt, time_sleep LND_CONNECT_RETRY_S w2)) /\
  LND_CONNECT_RETRY_S = 10.
Proof.
  split; [|split].
  - intros Hread passes. induction passes as [|k IH]; intros w; [reflexivity|].
    cbn [process_subscribed_invoices].
    destruct (try_processing w) as [[[]|e] w'] eqn:E; [apply IH|].
    apply try_processing_inv in E. destruct (Hread w) as (idx & w1 & Hok).
    congruence.
  - intros passes. induction passes as [|k IH]; intros w e; [discriminate|].
    cbn [process_subscribed_invoices].
    destruct (try_processing w) as [[[]|e'] w'] eqn:E.
    + apply IH.
    + cbn [fst]. intros H. inversion H; subst.
      apply try_processing_inv in E. eauto.
  - split; [|reflexivity]. intros w idx w1 e w2 Hread Hbody.
    unfold try_processing, try_except. unfold bind at 1. rewrite Hread.
    rewrite Hbody. reflexivity.
Qed.

End VerifierClaims.

(** C9 as stated fails: with a stop requested, the loop is still running
    after three passes, and each failed pass slept its ten seconds in full
    (scenario 5: rows 43, 44 and 45 are stored before the stream breaks). *)
Lemma verifier_ignores_stop_request :
  Scenario.stop_requested (Scenario.verifier_world true) = true /\
  fst (SentOffersVerifier.process_subscribed_invoices
         (rt := Scenario.rt) (squeak_db := Scenario.squeak_db)
         (lightning_client := Scenario.lightning_client)
         3 (Scenario.verifier_world true)) = SentOffersVerifier.Looping /\
  Scenario.slept
    (snd (SentOffersVerifier.process_subscribed_invoices
            (rt := Scenario.rt) (squeak_db := Scenario.squeak_db)
            (lightning_client := Scenario.lightning_client)
            3 (Scenario.verifier_world true))) = 30 /\
  map ServerReceivedPayment.settle_index
    (Scenario.stored
       (snd (SentOffersVerifier.process_subscribed_invoices
               (rt := Scenario.rt) (squeak_db := Scenario.squeak_db)
               (lightning_client := Scenario.lightning_client)
               3 (Scenario.verifier_world true)))) = [42; 43; 44; 45].
Proof. repeat split; vm_compute; reflexivity. Qed.

(* ================================================================== *)
(** * The scenarios of section 8, run *)

Section Scenarios.
Import Scenario.

Lemma request_of_inj a b : request_of a = request_of b -> a = b.
Proof.
  unfold request_of, digest. cbn [String.append]. intros H.
  do 4 (apply (f_equal (fun s => match s with
                                 | String _ r => r
                                 | EmptyString => EmptyString
                                 end)) in H; cbn in H).
  apply hex_inj in H. apply (f_equal (@rev byte)) in H.
  rewrite !rev_involutive in H. exact H.
Qed.

Lemma scenario_settlement :
  settlement_reveals_preimage lightning_client lightning_client.
Proof.
  intros preimage amount ws ws' resp wb wb' payment Hadd Hpay Hne.
  assert (Hreq : AddInvoiceResponse.payment_request resp = request_of preimage)
    by (cbn in Hadd; inversion Hadd; reflexivity).
  rewrite Hreq in Hpay.
  change (pay_invoice_sync (request_of preimage) wb)
    with (match find_request (request_of preimage) wb with
          | Some e => Ok (SendResponse.mk (fst e) "")
          | None => Ok (SendResponse.mk [] "no_route")
          end, logged "pay_invoice_sync" wb) in Hpay.
  unfold find_request in Hpay.
  destruct (find _ (ledger wb)) as [e|] eqn:Ef.
  - apply find_some in Ef. destruct Ef as [_ Ef].
    apply String.eqb_eq in Ef. apply request_of_inj in Ef.
    rewrite <- Ef. inversion Hpay. reflexivity.
  - inversion Hpay; subst. cbn in Hne. congruence.
Qed.

(** Scenario 1 (happy-path sale): the buyer recovers the key [01 00 .. 00]. *)
Lemma key_recovery_scenario :
  SqueakCore.pay_offer sale_received_offer w_unpacked
  = (Ok sale_sent_payment, w_paid) /\
  SentOffer.secret_key sale_sent_offer
  = Util.add_tweak (scalar x01) (SentOffer.nonce sale_sent_offer) /\
  (forall a t, Util.in_range a ->
     Util.subtract_tweak (Util.add_tweak a t) t = a) /\
  SentPayment.secret_key sale_sent_payment = scalar x01 /\
  SentPayment.valid sale_sent_payment = true.
Proof.
  split; [vm_compute; reflexivity|].
  apply (key_recovery_law (lib := lib) (py := py) (rt := rt)
           lightning_client lightning_client
           the_squeak (scalar x01) buyer_address 1000
           (empty false) w_created sale_sent_offer
           None w_created w_packaged sale_offer
           seller_address w_packaged w_unpacked sale_received_offer
           w_unpacked w_paid sale_sent_payment).
  - exact scenario_settlement.
  - split; vm_compute; reflexivity.
  - reflexivity.
  - vm_compute; reflexivity.
  - vm_compute; reflexivity.
  - vm_compute; reflexivity.
  - vm_compute; reflexivity.
Defined.

(** Scenario 2 (tampered offer): rejected, and the log of calls is as it
    was. *)
Lemma tampered_offer_scenario :
  SqueakCore.unpack_offer the_squeak tampered_offer seller_address w_packaged
  = (Raise (OfferHashMismatch (Offer.squeak_hash tampered_offer)
              (get_hash the_squeak)), w_packaged).
Proof.
  apply (unpack_offer_hash_binding (lib := lib) the_squeak tampered_offer seller_address
           w_packaged).
  vm_compute. discriminate.
Defined.

(** Scenario 3 (payment failure): no route, no [SentPayment]. *)
Lemma payment_failure_scenario :
  SqueakCore.pay_offer sale_received_offer (empty false)
  = (Raise (PaymentFailed "no_route"), logged "pay_invoice_sync" (empty false))
  /\
  exists sent_payment,
    SqueakCore.pay_offer sale_received_offer w_unpacked
    = (Ok sent_payment, w_paid) /\
    SentPayment.secret_key sent_payment
    = Util.subtract_tweak (scalar x03) (scalar x02) /\
    SentPayment.valid sent_payment
    = bytes_eqb
        (payment_point_bytes_from_scalar_bytes
           (Util.subtract_tweak (scalar x03) (scalar x02)))
        (point_of (scalar x01)).
Proof.
  split.
  - apply (pay_offer_payment_failed_iff (lib := lib)
             (lightning_client := lightning_client) sale_received_offer (empty false)
             (logged "pay_invoice_sync" (empty false))
             (SendResponse.mk [] "no_route") eq_refl).
    reflexivity.
  - apply (pay_offer_payment_failed_iff (lib := lib)
             (lightning_client := lightning_client) sale_received_offer w_unpacked w_paid
             (SendResponse.mk (scalar x03) "") eq_refl).
    discriminate.
Defined.

(** A contact profile cannot author: nothing is logged. *)
Lemma contact_profile_scenario :
  SqueakCore.make_squeak contact_profile "hello" None (empty false)
  = (Raise ProfileNotSigning, empty false) /\
  SqueakCore.make_squeak signing_profile "hello" None (empty false)
  = (Ok (mk_squeak "hello" 700000 (scalar x0b) 1 None (point_of (scalar x01)),
         scalar x01),
     logged "get_best_block_info" (empty false)).
Proof.
  split.
  - apply (make_squeak_requires_signing_profile (lib := lib) (py := py)
             (rt := rt) (bitcoin_client := bitcoin_client)
             contact_profile "hello" None (empty false)).
    reflexivity.
  - apply (proj2 (make_squeak_requires_signing_profile (lib := lib) (py := py)
                    (rt := rt) (bitcoin_client := bitcoin_client)
                    signing_profile "hello" None (empty false))
             [x6b; x65; x79] "key"%string "key"%string block_0
             (logged "get_best_block_info" (empty false)));
      reflexivity.
Defined.

(** Scenario 6 (external-address fallback). *)
Lemma external_address_scenario :
  (exists offer,
     SqueakCore.package_offer sale_sent_offer None w_created
     = (Ok offer, w_packaged) /\
     Offer.host offer = EmptyString /\ Offer.port offer = 0) /\
  LightningAddressHostPort.host
    (ReceivedOffer.lightning_address sale_received_offer)
  = PeerAddress.host seller_address /\
  LightningAddressHostPort.port
    (ReceivedOffer.lightning_address sale_received_offer)
  = Offer.port sale_offer.
Proof.
  destruct (external_address_fallback (W := world) (lib := lib) (py := py)
              (lightning_client := lightning_client)) as (Hpackage & _ & Hunpack).
  split.
  - apply (Hpackage sale_sent_offer w_created (GetInfoResponse.mk []));
      reflexivity.
  - destruct (Hunpack the_squeak sale_offer seller_address w_packaged
                sale_received_offer w_unpacked) as (_ & Hhost & Hport).
    + vm_compute. reflexivity.
    + split; [apply Hhost; reflexivity|exact Hport].
Defined.

(** Scenario 4 (duplicate nonce on connect): the map is unchanged. *)
Lemma duplicate_nonce_scenario :
  ConnectionManager.add_peer echo connected
  = (Raise DuplicateNonceError, connected).
Proof.
  apply (add_peer_duplicate_detection echo connected).
  exists outbound. split; [left; reflexivity|].
  exists (Version.mk 165). split; reflexivity.
Defined.

(** An inbound peer registered before its handshake hides nothing from a
    later peer that echoes nonce 165. *)
Lemma unversioned_peer_scenario :
  ConnectionManager._is_duplicate_nonce unversioned echo = false /\
  fst (ConnectionManager.add_peer echo unversioned) <> Raise DuplicateNonceError.
Proof.
  apply (add_peer_ignores_unversioned_peers echo unversioned).
  intros q [<-|[]]. reflexivity.
Defined.

(** Scenario 5, seen through [get_received_payments]: three payments, then
    [InvoiceSubscriptionError]. *)
Lemma broken_stream_scenario :
  exists result_stream,
    SqueakCore.get_received_payments 42 lookup (verifier_world false)
    = (Ok result_stream,
       logged "subscribe_invoices" (with_streams [] (verifier_world false))) /\
    snd (SqueakCore.consume 5 result_stream)
    = Some (SqueakCore.Thrown InvoiceSubscriptionError).
Proof.
  destruct (received_payments_of_settled_invoices
              (lightning_client := lightning_client) 42 lookup
              (verifier_world false)
              (logged "subscribe_invoices"
                 (with_streams [] (verifier_world false)))
              broken_stream eq_refl) as (g & Hg & Hrun).
  exists g. split; [exact Hg|].
  destruct (Hrun 5%nat ltac:(cbn; lia)) as (_ & _ & _ & Hfail).
  apply (Hfail UNAVAILABLE); [discriminate|reflexivity].
Defined.

(** The loop over the scenario's database, which always answers: still
    running after a hundred passes. *)
Lemma verifier_loop_scenario :
  fst (SentOffersVerifier.process_subscribed_invoices 100
         (verifier_world false)) = SentOffersVerifier.Looping.
Proof.
  apply (proj1 (verifier_loop_never_returns (W := world) (rt := rt)
                  (squeak_db := squeak_db)
                  (lightning_client := lightning_client))).
  intros w. unfold SentOffersVerifier._get_latest_settle_index. cbn.
  destruct (stored w); eexists; eexists; reflexivity.
Defined.

End Scenarios.

(* ================================================================== *)
(** * More of the squeak core: the external address *)

Section SplitFacts.

Lemma count_char_app c a b :
  count_char c (a ++ b)%string = (count_char c a + count_char c b)%nat.
Proof.
  induction a as [|d a IH]; cbn; [reflexivity|].
  destruct (Ascii.eqb d c); rewrite IH; reflexivity.
Qed.

Lemma split_not_nil sep s : split sep s <> [].
Proof.
  destruct s as [|c s]; cbn; [discriminate|].
  destruct (Ascii.eqb c sep); [discriminate|].
  destruct (split sep s); discriminate.
Qed.

Lemma length_split sep s :
  List.length (split sep s) = S (count_char sep s).
Proof.
  induction s as [|c s IH]; cbn; [reflexivity|].
  destruct (Ascii.eqb c sep); cbn; [rewrite IH; reflexivity|].
  destruct (split sep s) eqn:E; cbn in *; [discriminate|assumption].
Qed.

Lemma split_without_sep sep s : count_char sep s = O -> split sep s = [s].
Proof.
  induction s as [|c s IH]; cbn; [reflexivity|].
  destruct (Ascii.eqb c sep); [discriminate|].
  intros H. rewrite (IH H). reflexivity.
Qed.

Lemma split_at_first_sep sep a b :
  count_char sep a = O ->
  split sep (a ++ String sep b)%string = a :: split sep b.
Proof.
  induction a as [|c a IH]; cbn.
  - intros _. rewrite Ascii.eqb_refl. reflexivity.
  - destruct (Ascii.eqb c sep); [discriminate|].
    intros H. rewrite (IH H). reflexivity.
Qed.

(** Unpacking into two names needs exactly two parts. *)
Lemma unpack_two {A} (l : list string) (f : string -> string -> A) (d : A) :
  List.length l <> 2%nat ->
  match l with
  | [a; b] => f a b
  | _ => d
  end = d.
Proof.
  destruct l as [|a [|b [|c l]]]; cbn; intros H; try reflexivity.
  exfalso. apply H. reflexivity.
Qed.

End SplitFacts.

Section ExternalAddress.
Context {W : Type} {lib : SqueakLib} {py : Builtins} {rt : Runtime W}.
Context {bitcoin_client : BitcoinClient W}.
Context {lightning_client : LightningClient W}.

Lemma external_address_raises uri rest (w w' : W) info :
  get_info w = (Ok info, w') ->
  GetInfoResponse.uris info = uri :: rest ->
  (count_char "@" uri <> 1%nat \/
   exists pubkey address,
     uri = (pubkey ++ String "@" address)%string /\
     count_char "@" pubkey = O /\ count_char "@" address = O /\
     count_char ":" address <> 1%nat) ->
  SqueakCore.get_lnd_external_address w = (Raise ValueError, w').
Proof.
  intros Hi Hu Hbad.
  unfold SqueakCore.get_lnd_external_address, bind. rewrite Hi, Hu.
  destruct Hbad as [Hat|(pubkey & address & -> & Hp & Ha & Hc)].
  - rewrite unpack_two; [reflexivity|].
    rewrite length_split. lia.
  - rewrite split_at_first_sep, split_without_sep by assumption.
    rewrite unpack_two; [reflexivity|].
    rewrite length_split. lia.
Qed.

(** X1.  Of the URIs that [get_info] lists only the first is read.  When it
    is [pubkey@host:port] (no other "@" or ":" in it) and the port is a
    number, [get_lnd_external_address] returns that host and port, and
    [package_offer] without an address of its own puts them in the offer. *)
Theorem external_address_of_first_uri (pubkey host port_str : string)
    (port : Z) (rest : list string) (sent_offer : SentOffer.t) (w w' : W)
    (info : GetInfoResponse.t) :
  get_info w = (Ok info, w') ->
  GetInfoResponse.uris info
  = (pubkey ++ String "@" (host ++ String ":" port_str))%string :: rest ->
  count_char "@" pubkey = O ->
  count_char "@" host = O -> count_char ":" host = O ->
  count_char "@" port_str = O -> count_char ":" port_str = O ->
  int_of_str port_str = Ok port ->
  SqueakCore.get_lnd_external_address w
  = (Ok (Some (LightningAddressHostPort.mk host port)), w') /\
  exists offer,
    SqueakCore.package_offer sent_offer None w = (Ok offer, w') /\
    Offer.host offer = host /\ Offer.port offer = port.
Proof.
  intros Hi Hu Hp Hh1 Hh2 Hs1 Hs2 Hint.
  assert (Haddr : count_char "@" (host ++ String ":" port_str)%string = O).
  { rewrite count_char_app. cbn. rewrite Hh1, Hs1. reflexivity. }
  assert (E : SqueakCore.get_lnd_external_address w
              = (Ok (Some (LightningAddressHostPort.mk host port)), w')).
  { unfold SqueakCore.get_lnd_external_address, bind, lift, ret.
    rewrite Hi, Hu.
    rewrite split_at_first_sep, split_without_sep by assumption.
    rewrite split_at_first_sep, split_without_sep by assumption.
    rewrite Hint. reflexivity. }
  split; [exact E|].
  unfold SqueakCore.package_offer, bind, ret. rewrite E.
  eexists. split; [reflexivity|]. split; reflexivity.
Qed.

(** X2.  A first URI that does not unpack raises [ValueError]: one without
    exactly one "@", or one whose address part does not have exactly one ":",
    as with an IPv6 literal.  [package_offer] without an address of its own
    then raises too; it does not fall back to host "" and port 0. *)
Theorem external_address_malformed_uri (uri : string) (rest : list string)
    (sent_offer : SentOffer.t) (w w' : W) (info : GetInfoResponse.t) :
  get_info w = (Ok info, w') ->
  GetInfoResponse.uris info = uri :: rest ->
  (count_char "@" uri <> 1%nat \/
   exists pubkey address,
     uri = (pubkey ++ String "@" address)%string /\
     count_char "@" pubkey = O /\ count_char "@" address = O /\
     count_char ":" address <> 1%nat) ->
  SqueakCore.get_lnd_external_address w = (Raise ValueError, w') /\
  SqueakCore.package_offer sent_offer None w = (Raise ValueError, w').
Proof.
  intros Hi Hu Hbad.
  pose proof (external_address_raises _ _ _ _ _ Hi Hu Hbad) as E.
  split; [exact E|].
  unfold SqueakCore.package_offer, bind. rewrite E. reflexivity.
Qed.

End ExternalAddress.

(* ================================================================== *)
(** * More of the squeak core: offers, payments and block headers *)

Section SqueakCoreMore.
Context {W : Type} {lib : SqueakLib} {py : Builtins} {rt : Runtime W}.
Context {bitcoin_client : BitcoinClient W}.
Context {lightning_client : LightningClient W}.
Context {chain : BlockLookup W} {anchor : BlockAnchor}.

(** X3.  [package_offer] with an address of its own makes no call: the world
    is as before and the offer has that host and port.  And the offer never
    depends on what else the sent offer holds: two sent offers with the same
    squeak hash, nonce and payment request give the same offer, whatever
    their preimage, payment hash, price, times and buyer are. *)
Theorem package_offer_reads_only_public_fields :
  (forall sent_offer address (w : W),
     SqueakCore.package_offer sent_offer (Some address) w
     = (Ok (Offer.mk (SentOffer.squeak_hash sent_offer)
              (SentOffer.nonce sent_offer)
              (SentOffer.payment_request sent_offer)
              (LightningAddressHostPort.host address)
              (LightningAddressHostPort.port address)), w)) /\
  (forall a b lnd_external_address (w : W),
     SentOffer.squeak_hash a = SentOffer.squeak_hash b ->
     SentOffer.nonce a = SentOffer.nonce b ->
     SentOffer.payment_request a = SentOffer.payment_request b ->
     SqueakCore.package_offer a lnd_external_address w
     = SqueakCore.package_offer b lnd_external_address w).
Proof.
  split.
  - intros. reflexivity.
  - intros a b ext w Hh Hn Hr. unfold SqueakCore.package_offer, bind, ret.
    destruct ext as [address|].
    + cbn. rewrite Hh, Hn, Hr. reflexivity.
    + destruct (SqueakCore.get_lnd_external_address w) as [[r|e] w'].
      * rewrite Hh, Hn, Hr. reflexivity.
      * reflexivity.
Qed.

(** X4.  [create_offer] draws its nonce, then calls [add_invoice], then
    [lookup_invoice].  If [add_invoice] raises, the exception comes out and
    [lookup_invoice] is not called.  If [lookup_invoice] raises, the
    exception comes out too, in the world where the invoice has been added:
    nothing takes it back.  Otherwise the sent offer holds the invoice's hash
    and payment request, the tweaked key as its preimage, and the lookup's
    creation date and expiry. *)
Theorem create_offer_failure_modes (squeak : CSqueak) (secret_key : bytes)
    (peer_address : PeerAddress.t) (price_msat : Z) (w w1 : W)
    (nonce : bytes) :
  generate_tweak w = (nonce, w1) ->
  let preimage := Util.add_tweak secret_key nonce in
  let run :=
    SqueakCore.create_offer squeak secret_key peer_address price_msat w in
  (forall e w2,
     add_invoice preimage price_msat w1 = (Raise e, w2) ->
     run = (Raise e, w2)) /\
  (forall resp w2 e w3,
     add_invoice preimage price_msat w1 = (Ok resp, w2) ->
     lookup_invoice (hex (AddInvoiceResponse.r_hash resp)) w2 = (Raise e, w3) ->
     run = (Raise e, w3)) /\
  (forall resp w2 inv w3,
     add_invoice preimage price_msat w1 = (Ok resp, w2) ->
     lookup_invoice (hex (AddInvoiceResponse.r_hash resp)) w2 = (Ok inv, w3) ->
     run = (Ok (SentOffer.mk None (get_hash squeak)
                  (AddInvoiceResponse.r_hash resp) preimage nonce price_msat
                  (AddInvoiceResponse.payment_request resp)
                  (Invoice.creation_date inv) (Invoice.expiry inv)
                  peer_address), w3)).
Proof.
  intros Ht preimage run. subst preimage run.
  unfold SqueakCore.create_offer, bind, ret. rewrite Ht.
  split; [|split].
  - intros e w2 Ha. rewrite Ha. reflexivity.
  - intros resp w2 e w3 Ha Hl. rewrite Ha, Hl. reflexivity.
  - intros resp w2 inv w3 Ha Hl. rewrite Ha, Hl. reflexivity.
Qed.

(** X5.  What the seller packaged is what the buyer unpacks: the received
    offer has the sent offer's squeak hash, nonce and payment request, the
    squeak's payment point and the address of the peer it came from.  And
    when the payment request decodes to the hexadecimal form of the sent
    offer's payment hash, the received offer has that payment hash,
    byte for byte. *)
Theorem offer_round_trip (seller buyer : LightningClient W)
    (squeak : CSqueak) (sent_offer : SentOffer.t)
    (lnd_external_address : option LightningAddressHostPort.t)
    (ws ws' : W) (offer : Offer.t) (peer_address : PeerAddress.t)
    (wb wb' : W) (received_offer : ReceivedOffer.t) :
  SqueakCore.package_offer (lightning_client := seller) sent_offer
    lnd_external_address ws = (Ok offer, ws') ->
  SqueakCore.unpack_offer (lightning_client := buyer) squeak offer
    peer_address wb = (Ok received_offer, wb') ->
  ReceivedOffer.squeak_hash received_offer = SentOffer.squeak_hash sent_offer /\
  ReceivedOffer.nonce received_offer = SentOffer.nonce sent_offer /\
  ReceivedOffer.payment_request received_offer
  = SentOffer.payment_request sent_offer /\
  ReceivedOffer.payment_point received_offer = paymentPoint squeak /\
  ReceivedOffer.peer_address received_offer = peer_address /\
  (forall pay_req,
     decode_pay_req (LightningClient := buyer)
       (SentOffer.payment_request sent_offer) wb = (Ok pay_req, wb') ->
     PayReq.payment_hash pay_req = hex (SentOffer.payment_hash sent_offer) ->
     ReceivedOffer.payment_hash received_offer
     = SentOffer.payment_hash sent_offer).
Proof.
  intros Hp Hu.
  apply package_offer_inv in Hp as (Hh & Hn & Hr).
  apply unpack_offer_inv in Hu as (pay_req & ph & Hhash & Hd & Hf & ->).
  cbn. rewrite Hhash, Hh, Hn, Hr. repeat split.
  intros pay_req' Hd' Hhex. rewrite Hr, Hd' in Hd.
  inversion Hd; subst pay_req'.
  rewrite Hhex, fromhex_hex in Hf. congruence.
Qed.

(** X6.  The [valid] flag can be trusted: for a payment of an offer that
    [unpack_offer] made for a squeak, [valid] is true exactly when the point
    of the key in the [SentPayment] is the squeak's payment point.  The
    payment is filed under the squeak's hash and the sender's address, and
    carries no id and no creation time. *)
Theorem sent_payment_valid_sound (squeak : CSqueak) (offer : Offer.t)
    (peer_address : PeerAddress.t) (w w1 w2 w3 : W)
    (received_offer : ReceivedOffer.t) (sent_payment : SentPayment.t) :
  SqueakCore.unpack_offer squeak offer peer_address w
  = (Ok received_offer, w1) ->
  SqueakCore.pay_offer received_offer w2 = (Ok sent_payment, w3) ->
  (SentPayment.valid sent_payment = true <->
   payment_point_bytes_from_scalar_bytes (SentPayment.secret_key sent_payment)
   = paymentPoint squeak) /\
  SentPayment.squeak_hash sent_payment = get_hash squeak /\
  SentPayment.peer_address sent_payment = peer_address /\
  SentPayment.sent_payment_id sent_payment = None /\
  SentPayment.created_time_ms sent_payment = None.
Proof.
  intros Hu Hpay.
  apply unpack_offer_inv in Hu as (pay_req & ph & _ & _ & _ & ->).
  destruct (pay_offer_inv _ _ _ _ Hpay) as (payment & Hsync & Hne).
  rewrite (pay_offer_paid _ _ _ _ Hsync Hne) in Hpay.
  inversion Hpay; subst sent_payment; clear Hpay. cbn.
  split; [apply bytes_eqb_eq|]. destruct peer_address. cbn. auto.
Qed.

(** X7.  [get_block_header] asks for the block at the squeak's height and
    compares hashes before it parses anything: with a different hash it
    raises "Block hash incorrect.", with the same hash it returns what
    [parse_block_header] makes of the header; so whenever it returns a
    header, the squeak's block hash is the chain's at that height. *)
Theorem get_block_header_checks_hash (squeak : CSqueak) (w w' : W)
    (block_info : BlockInfo.t) :
  get_block_info_by_height (nBlockHeight squeak) w = (Ok block_info, w') ->
  (hashBlock squeak <> BlockInfo.block_hash block_info ->
   SqueakCore.get_block_header squeak w
   = (Raise (OtherError "Block hash incorrect."), w')) /\
  (hashBlock squeak = BlockInfo.block_hash block_info ->
   SqueakCore.get_block_header squeak w
   = (parse_block_header (BlockInfo.block_header block_info), w')) /\
  (forall header w'',
     SqueakCore.get_block_header squeak w = (Ok header, w'') ->
     hashBlock squeak = BlockInfo.block_hash block_info).
Proof.
  intros Hb. unfold SqueakCore.get_block_header, bind, raise, lift.
  rewrite Hb. split; [|split].
  - intros Hne. rewrite bytes_eqb_neq by assumption. reflexivity.
  - intros ->. rewrite bytes_eqb_refl. reflexivity.
  - intros header w''.
    destruct (bytes_eqb _ _) eqn:E; cbn [negb]; [|discriminate].
    intros _. apply bytes_eqb_eq. assumption.
Qed.

End SqueakCoreMore.

(* ================================================================== *)
(** * More of the received-payments generator *)

Section GeneratorMore.

Lemma consume_firstn f invoices end_ : forall fuel,
  fst (SqueakCore.consume fuel (SqueakCore.Suspended f invoices end_))
  = firstn fuel (map (SqueakCore.received_payment f)
                   (filter Invoice.settled invoices)).
Proof.
  induction invoices as [|invoice rest IH]; intros [|fuel];
    try reflexivity.
  - cbn. destruct end_ as [|[]]; try reflexivity.
    destruct (negb _); reflexivity.
  - cbn [filter]. destruct (Invoice.settled invoice) eqn:Hs.
    + rewrite consume_yield by assumption. cbn [fst map firstn].
      rewrite IH. reflexivity.
    + rewrite consume_skip by assumption. apply IH.
Qed.

Lemma consume_unfinished f invoices end_ : forall fuel,
  (fuel <= List.length (filter Invoice.settled invoices))%nat ->
  snd (SqueakCore.consume fuel (SqueakCore.Suspended f invoices end_)) = None.
Proof.
  induction invoices as [|invoice rest IH]; intros [|fuel] Hf;
    try reflexivity.
  - cbn in Hf. lia.
  - cbn [filter] in Hf. destruct (Invoice.settled invoice) eqn:Hs.
    + rewrite consume_yield by assumption. cbn [snd]. apply IH.
      cbn in Hf. lia.
    + rewrite consume_skip by assumption. apply IH. assumption.
Qed.

Lemma StronglySorted_lt_filter (g : Invoice.t -> bool) invoices :
  StronglySorted Z.lt (map Invoice.settle_index invoices) ->
  StronglySorted Z.lt (map Invoice.settle_index (filter g invoices)).
Proof.
  induction invoices as [|i l IH]; cbn; intros H; [constructor|].
  inversion H as [|? ? Hl Hi]; subst.
  destruct (g i); cbn; [|auto].
  constructor; [auto|].
  rewrite Forall_forall in *. intros x Hx. apply Hi.
  rewrite in_map_iff in *. destruct Hx as (j & <- & Hj).
  apply filter_In in Hj. exists j. tauto.
Qed.

Lemma firstn_In {A} (x : A) n : forall l, In x (firstn n l) -> In x l.
Proof.
  induction n as [|n IH]; intros [|y l]; cbn; try contradiction.
  intros [->|H]; [left; reflexivity|right; apply IH; assumption].
Qed.

Lemma StronglySorted_lt_firstn n : forall l : list Z,
  StronglySorted Z.lt l -> StronglySorted Z.lt (firstn n l).
Proof.
  induction n as [|n IH]; intros [|x l] H; cbn; try constructor.
  - inversion H; subst. auto.
  - inversion H as [|? ? _ Hx]; subst.
    rewrite Forall_forall in *. intros y Hy. apply Hx.
    eapply firstn_In. eassumption.
Qed.

(** X8.  The generator keeps the order of the stream: if the invoices come
    with strictly increasing settle indices, so do the payments it yields,
    however far the consumer runs it. *)
Theorem received_payments_settle_index_increasing
    (get_sent_offer_fn : bytes -> SentOffer.t) (invoices : list Invoice.t)
    (end_ : InvoiceStream.ending) (fuel : nat) :
  StronglySorted Z.lt (map Invoice.settle_index invoices) ->
  StronglySorted Z.lt
    (map ReceivedPayment.settle_index
       (fst (SqueakCore.consume fuel
               (SqueakCore.Suspended get_sent_offer_fn invoices end_)))).
Proof.
  intros Hs. rewrite consume_firstn, <- firstn_map, map_map. cbn.
  apply StronglySorted_lt_firstn.
  change (fun x => Invoice.settle_index x) with Invoice.settle_index.
  apply StronglySorted_lt_filter. assumption.
Qed.

(** X9.  The lookup function is called for settled invoices only: two lookup
    functions that agree on the payment hashes of the settled invoices give
    the same payments and the same ending, whatever they answer, or would
    raise in practice, for the hashes of invoices that are still open. *)
Theorem received_payments_lookup_only_settled
    (f g : bytes -> SentOffer.t) (invoices : list Invoice.t)
    (end_ : InvoiceStream.ending) (fuel : nat) :
  (forall invoice, In invoice invoices -> Invoice.settled invoice = true ->
                   f (Invoice.r_hash invoice) = g (Invoice.r_hash invoice)) ->
  SqueakCore.consume fuel (SqueakCore.Suspended f invoices end_)
  = SqueakCore.consume fuel (SqueakCore.Suspended g invoices end_).
Proof.
  revert fuel. induction invoices as [|invoice rest IH]; intros [|fuel] H;
    try reflexivity.
  destruct (Invoice.settled invoice) eqn:Hs.
  - rewrite !consume_yield by assumption.
    rewrite IH by (intros; apply H; [right|]; assumption).
    unfold SqueakCore.received_payment.
    rewrite (H invoice (or_introl eq_refl) Hs). reflexivity.
  - rewrite !consume_skip by assumption.
    apply IH. intros; apply H; [right|]; assumption.
Qed.

(** X10.  The generator is lazy: a consumer that stops after [n] steps, with
    [n] at most the number of settled invoices, has been given the payments
    of the first [n] of them and has not seen the stream end or fail. *)
Theorem received_payments_are_lazy
    (get_sent_offer_fn : bytes -> SentOffer.t) (invoices : list Invoice.t)
    (end_ : InvoiceStream.ending) (n : nat) :
  (n <= List.length (filter Invoice.settled invoices))%nat ->
  SqueakCore.consume n (SqueakCore.Suspended get_sent_offer_fn invoices end_)
  = (map (SqueakCore.received_payment get_sent_offer_fn)
       (firstn n (filter Invoice.settled invoices)), None).
Proof.
  intros Hn.
  rewrite (surjective_pairing (SqueakCore.consume n _)).
  rewrite consume_firstn, consume_unfinished by assumption.
  rewrite firstn_map. reflexivity.
Qed.

(** X11.  Only [grpc.RpcError] is caught: when the stream fails with any
    other exception, the consumer has been given the payments of all settled
    invoices and then gets that exception, unchanged. *)
Theorem received_payments_other_errors_pass
    (get_sent_offer_fn : bytes -> SentOffer.t) (invoices : list Invoice.t)
    (e : exn) (fuel : nat) :
  (forall code, e <> RpcError code) ->
  (List.length invoices < fuel)%nat ->
  SqueakCore.consume fuel
    (SqueakCore.Suspended get_sent_offer_fn invoices (InvoiceStream.Failed e))
  = (map (SqueakCore.received_payment get_sent_offer_fn)
       (filter Invoice.settled invoices), Some (SqueakCore.Thrown e)).
Proof.
  intros He Hf.
  rewrite (surjective_pairing (SqueakCore.consume fuel _)).
  rewrite consume_payments, consume_finish by assumption.
  destruct e; try reflexivity. exfalso. exact (He code eq_refl).
Qed.

End GeneratorMore.

(* ================================================================== *)
(** * More of the connection manager: lookups, round trips, closing *)

Section ConnectionManagerMore.
Import ConnectionManager.

(** [d.get(k)], as [get_peer] reads the dict. *)
Lemma get_peer_Some self a p :
  get_peer self a = Some p -> In (a, p) (_peers self).
Proof.
  unfold get_peer.
  destruct (find _ (_peers self)) as [[k v]|] eqn:E; [|discriminate].
  cbn. intros H. inversion H; subst.
  apply find_some in E. destruct E as [Hin Hk].
  apply PeerAddress_eqb_eq in Hk. cbn in Hk. subst. assumption.
Qed.

Lemma get_peer_absent cb d a :
  ~ In a (map fst d) -> get_peer (mk d cb) a = None.
Proof.
  unfold get_peer. cbn [_peers]. induction d as [|[k v] d IH]; cbn.
  - reflexivity.
  - intros Hn. destruct (PeerAddress.eqb a k) eqn:E.
    + apply PeerAddress_eqb_eq in E. subst. tauto.
    + apply IH. tauto.
Qed.

Lemma get_peer_app cb l1 l2 a :
  ~ In a (map fst l1) -> get_peer (mk (l1 ++ l2) cb) a = get_peer (mk l2 cb) a.
Proof.
  unfold get_peer. cbn [_peers]. induction l1 as [|[k v] l1 IH]; cbn.
  - reflexivity.
  - intros Hn. destruct (PeerAddress.eqb a k) eqn:E.
    + apply PeerAddress_eqb_eq in E. subst. tauto.
    + apply IH. tauto.
Qed.

Lemma get_peer_skip cb l1 k v l2 a :
  a <> k ->
  get_peer (mk (l1 ++ (k, v) :: l2) cb) a = get_peer (mk (l1 ++ l2) cb) a.
Proof.
  intros Hne. unfold get_peer. cbn [_peers].
  induction l1 as [|[k' v'] l1 IH]; cbn.
  - destruct (PeerAddress.eqb a k) eqn:E; [|reflexivity].
    apply PeerAddress_eqb_eq in E. contradiction.
  - destruct (PeerAddress.eqb a k'); [reflexivity|exact IH].
Qed.

Lemma get_peer_here cb k v l :
  get_peer (mk ((k, v) :: l) cb) k = Some v.
Proof.
  unfold get_peer. cbn.
  assert (E : PeerAddress.eqb k k = true) by (apply PeerAddress_eqb_eq; auto).
  rewrite E. reflexivity.
Qed.

Lemma manager_eta self : mk (_peers self) (peers_changed_callback self) = self.
Proof. destruct self. reflexivity. Qed.

(** What a successful [add_peer] did. *)
Lemma add_peer_ok peer self :
  fst (add_peer peer self) = Ok tt ->
  ~ In (Peer.address peer) (map fst (_peers self)) /\
  peers_changed_callback self = None /\
  add_peer peer self
  = (Ok tt, mk (_peers self ++ [(Peer.address peer, peer)]) None).
Proof.
  intros Hok. destruct (nonce_check_cases peer self) as [Hd|Hf].
  { rewrite add_peer_duplicate_nonce in Hok by assumption. discriminate. }
  destruct (dict_contains (Peer.address peer) (_peers self)) eqn:E.
  { apply dict_contains_In in E.
    rewrite add_peer_duplicate_peer in Hok by assumption. discriminate. }
  apply dict_contains_not_In in E.
  rewrite add_peer_inserts in * by assumption.
  unfold on_peers_changed in *. cbn [peers_changed_callback] in *.
  destruct (peers_changed_callback self); [discriminate|]. auto.
Qed.

(** What a successful [remove_peer] did, in a dict with distinct keys. *)
Lemma remove_peer_ok peer self :
  NoDup (map fst (_peers self)) ->
  fst (remove_peer peer self) = Ok tt ->
  exists l1 v l2,
    _peers self = l1 ++ (Peer.address peer, v) :: l2 /\
    ~ In (Peer.address peer) (map fst (l1 ++ l2)) /\
    remove_peer peer self = (Ok tt, mk (l1 ++ l2) None).
Proof.
  intros Hnd Hok.
  destruct (dict_contains (Peer.address peer) (_peers self)) eqn:E.
  - apply dict_contains_In in E.
    destruct (remove_peer_present _ _ E) as (l1 & v & l2 & Hp & _ & Hr).
    exists l1, v, l2. rewrite Hr in *. split; [assumption|].
    rewrite Hp, map_app in Hnd. cbn in Hnd.
    apply NoDup_remove_2 in Hnd. rewrite <- map_app in Hnd.
    split; [assumption|].
    unfold on_peers_changed in *. cbn [peers_changed_callback] in *.
    destruct (peers_changed_callback self); [discriminate|reflexivity].
  - apply dict_contains_not_In in E.
    rewrite remove_peer_missing in Hok by assumption. discriminate.
Qed.

(** X12.  [has_connection] and [get_peer] agree: an address is connected
    exactly when [get_peer] finds a peer for it. *)
Theorem has_connection_iff_get_peer (self : t) (address : PeerAddress.t) :
  has_connection self address = true <->
  exists peer, get_peer self address = Some peer.
Proof.
  unfold has_connection, dict_contains, get_peer.
  induction (_peers self) as [|[k v] d IH]; cbn.
  - split; [discriminate|]. intros [p H]. discriminate.
  - destruct (PeerAddress.eqb address k); cbn; [|exact IH].
    split; [eauto|reflexivity].
Qed.

(** X13.  After [add_peer] has returned, [get_peer] at the peer's address
    gives that peer, and the peers at all other addresses are as before. *)
Theorem get_peer_after_add_peer (peer : Peer.t) (self : t) :
  fst (add_peer peer self) = Ok tt ->
  get_peer (snd (add_peer peer self)) (Peer.address peer) = Some peer /\
  forall address,
    address <> Peer.address peer ->
    get_peer (snd (add_peer peer self)) address = get_peer self address.
Proof.
  intros Hok. destruct (add_peer_ok _ _ Hok) as (Hn & Hc & ->). cbn [snd].
  split.
  - rewrite get_peer_app by assumption. apply get_peer_here.
  - intros a Hne.
    rewrite <- (manager_eta self) at 2. rewrite Hc.
    rewrite <- (app_nil_r (_peers self)) at 2.
    rewrite (get_peer_skip None (_peers self) _ peer [] a Hne). reflexivity.
Qed.

(** X14.  After [remove_peer] has returned, [get_peer] at the peer's address
    gives nothing, and the peers at all other addresses are as before. *)
Theorem get_peer_after_remove_peer (peer : Peer.t) (self : t) :
  NoDup (map fst (_peers self)) ->
  fst (remove_peer peer self) = Ok tt ->
  get_peer (snd (remove_peer peer self)) (Peer.address peer) = None /\
  forall address,
    address <> Peer.address peer ->
    get_peer (snd (remove_peer peer self)) address = get_peer self address.
Proof.
  intros Hnd Hok.
  destruct (remove_peer_ok _ _ Hnd Hok) as (l1 & v & l2 & Hp & Hn & Hr).
  assert (Hc : peers_changed_callback self = None).
  { destruct (remove_peer_present peer self) as (l1' & v' & l2' & _ & _ & Hr').
    - rewrite Hp, map_app, in_app_iff. right. left. reflexivity.
    - rewrite Hr' in Hok. unfold on_peers_changed in Hok.
      cbn [peers_changed_callback] in Hok.
      destruct (peers_changed_callback self); [discriminate|reflexivity]. }
  rewrite Hr. cbn [snd]. split.
  - apply get_peer_absent. assumption.
  - intros a Hne. rewrite <- (manager_eta self), Hp, Hc.
    symmetry. apply get_peer_skip. assumption.
Qed.

(** X15.  Removing a peer that was just added gives back the manager as it
    was before the two calls. *)
Theorem add_then_remove_peer (peer : Peer.t) (self : t) :
  fst (add_peer peer self) = Ok tt ->
  remove_peer peer (snd (add_peer peer self)) = (Ok tt, self).
Proof.
  intros Hok. destruct (add_peer_ok _ _ Hok) as (Hn & Hc & ->). cbn [snd].
  unfold remove_peer, has_connection. cbn [_peers peers_changed_callback].
  assert (Hin : dict_contains (Peer.address peer)
                  (_peers self ++ [(Peer.address peer, peer)]) = true).
  { apply dict_contains_In. rewrite map_app, in_app_iff. right. left.
    reflexivity. }
  rewrite Hin. cbn [negb].
  assert (Hdel : dict_del (Peer.address peer)
                   (_peers self ++ [(Peer.address peer, peer)])
                 = Some (_peers self)).
  { clear Hin Hok Hc. induction (_peers self) as [|[k v] d IH]; cbn.
    - assert (E : PeerAddress.eqb (Peer.address peer) (Peer.address peer)
                  = true) by (apply PeerAddress_eqb_eq; auto).
      rewrite E. reflexivity.
    - cbn in Hn. destruct (PeerAddress.eqb (Peer.address peer) k) eqn:E.
      + apply PeerAddress_eqb_eq in E. subst. tauto.
      + rewrite IH by tauto. reflexivity. }
  rewrite Hdel. unfold on_peers_changed. cbn [peers_changed_callback].
  destruct self as [d cb]. cbn in Hc |- *. subst cb. reflexivity.
Qed.

(** X16.  [add_peer] never succeeds twice in a row for the same peer: once it
    has run, whether it returned or raised, running it again raises
    [DuplicateNonceError] or [DuplicatePeerError] and changes nothing. *)
Theorem add_peer_twice_fails (peer : Peer.t) (self : t) :
  let after := snd (add_peer peer self) in
  snd (add_peer peer after) = after /\
  (fst (add_peer peer after) = Raise DuplicateNonceError \/
   fst (add_peer peer after) = Raise DuplicatePeerError).
Proof.
  intros after.
  assert (Hcases : (exists q, In q (peers after) /\ nonce_related q peer) \/
                   In (Peer.address peer) (map fst (_peers after))).
  { unfold after. destruct (nonce_check_cases peer self) as [Hd|Hf].
    { left. rewrite add_peer_duplicate_nonce by assumption. exact Hd. }
    destruct (dict_contains (Peer.address peer) (_peers self)) eqn:E.
    { apply dict_contains_In in E. right.
      rewrite add_peer_duplicate_peer by assumption. exact E. }
    apply dict_contains_not_In in E. right.
    rewrite add_peer_inserts by assumption.
    unfold on_peers_changed. cbn [peers_changed_callback].
    destruct (peers_changed_callback self); cbn [snd _peers];
      rewrite map_app, in_app_iff; right; left; reflexivity. }
  destruct (nonce_check_cases peer after) as [Hd|Hf].
  - rewrite add_peer_duplicate_nonce by assumption. auto.
  - destruct Hcases as [(q & Hq & Hr)|Hin].
    + rewrite Forall_forall in Hf. exfalso. exact (Hf q Hq Hr).
    + rewrite add_peer_duplicate_peer by assumption. auto.
Qed.

(** X17.  Once a callback is registered, [on_peers_changed] raises
    [AttributeError] (it calls a [get_peers] method the class lacks) and the
    callback is never run.  So [add_peer], when both checks pass, puts the
    peer in the map and then raises; and [remove_peer] of a registered
    address deletes the entry and then raises. *)
Theorem callback_makes_changes_raise (callback : list Peer.t -> result unit)
    (peer : Peer.t) (self : t) :
  let observed := snd (listen_peers_changed callback self) in
  (~ (exists q, In q (peers self) /\ nonce_related q peer) ->
   ~ In (Peer.address peer) (map fst (_peers self)) ->
   add_peer peer observed
   = (Raise AttributeError,
      mk (_peers self ++ [(Peer.address peer, peer)]) (Some callback))) /\
  (In (Peer.address peer) (map fst (_peers self)) ->
   exists l1 v l2,
     _peers self = l1 ++ (Peer.address peer, v) :: l2 /\
     remove_peer peer observed
     = (Raise AttributeError, mk (l1 ++ l2) (Some callback))).
Proof.
  intros observed. subst observed. cbn [listen_peers_changed snd]. split.
  - intros Hn Hin. rewrite add_peer_inserts.
    + reflexivity.
    + destruct (nonce_check_cases peer
                  (mk (_peers self) (Some callback))) as [Hd|Hf];
        [|exact Hf].
      exfalso. apply Hn. exact Hd.
    + exact Hin.
  - intros Hin.
    destruct (remove_peer_present peer (mk (_peers self) (Some callback)) Hin)
      as (l1 & v & l2 & Hp & _ & Hr).
    exists l1, v, l2. split; [exact Hp|]. rewrite Hr. reflexivity.
Qed.

(** X18.  In a manager built by [add_peer] and [remove_peer] calls, a peer is
    found only under its own address. *)
Theorem get_peer_keyed_by_address (calls : list call)
    (address : PeerAddress.t) (peer : Peer.t) :
  get_peer (run_calls calls init) address = Some peer ->
  Peer.address peer = address.
Proof.
  intros Hg. apply get_peer_Some in Hg.
  pose proof (keyed_by_address _ (run_calls_consistent calls init
                                    consistent_init)) as Hk.
  rewrite Forall_forall in Hk. symmetry. exact (Hk _ Hg).
Qed.

Section Closing.
Context {W : Type} {connection : PeerConnection W}.

Lemma close_each_snoc peers peer (w : W) :
  close_each (peers ++ [peer]) w
  = bind (close_each peers) (fun _ => close peer) w.
Proof.
  revert w. induction peers as [|p l IH]; intros w; cbn.
  - unfold bind, ret. destruct (close peer w) as [[[]|e] w']; reflexivity.
  - unfold bind in *. destruct (close p w) as [[[]|e] w']; [|reflexivity].
    apply IH.
Qed.

(** X19.  [stop_connection] closes the peer registered under the address and
    nothing else: after [add_peer] has returned it closes that peer; after
    [remove_peer] has returned it closes nothing and leaves the world as it
    is. *)
Theorem stop_connection_follows_the_map (peer : Peer.t) (self : t) (w : W) :
  (fst (add_peer peer self) = Ok tt ->
   stop_connection (snd (add_peer peer self)) (Peer.address peer) w
   = close peer w) /\
  (NoDup (map fst (_peers self)) ->
   fst (remove_peer peer self) = Ok tt ->
   stop_connection (snd (remove_peer peer self)) (Peer.address peer) w
   = (Ok tt, w)).
Proof.
  unfold stop_connection. split.
  - intros Hok. destruct (add_peer_ok _ _ Hok) as (Hn & _ & ->). cbn [snd].
    rewrite get_peer_app by assumption.
    rewrite get_peer_here. reflexivity.
  - intros Hnd Hok.
    destruct (remove_peer_ok _ _ Hnd Hok) as (l1 & v & l2 & _ & Hn & ->).
    cbn [snd]. rewrite get_peer_absent by assumption. reflexivity.
Qed.

(** X20.  [stop_all_connections] closes the peers in the order in which they
    were registered and stops at the first [close] that raises: after
    [add_peer] has returned, it does what it did before and then, if that
    returned, closes the new peer. *)
Theorem stop_all_connections_after_add_peer (peer : Peer.t) (self : t)
    (w : W) :
  fst (add_peer peer self) = Ok tt ->
  stop_all_connections (snd (add_peer peer self)) w
  = bind (stop_all_connections self) (fun _ => close peer) w.
Proof.
  intros Hok. destruct (add_peer_ok _ _ Hok) as (_ & _ & ->). cbn [snd].
  unfold stop_all_connections, peers. cbn [_peers].
  rewrite map_app. cbn [map snd]. apply close_each_snoc.
Qed.

End Closing.
End ConnectionManagerMore.

(* ================================================================== *)
(** * More of the sent-offers verifier *)

Section VerifierMore.
Context {W : Type} {rt : Runtime W}.
Context {squeak_db : SqueakDb W} {lightning_client : LightningClient W}.
Import SentOffersVerifier.

Lemma for_each_invoice_app before rest end_ (w w' : W) :
  for_each_invoice before InvoiceStream.Exhausted w = (Ok tt, w') ->
  for_each_invoice (before ++ rest) end_ w = for_each_invoice rest end_ w'.
Proof.
  revert w. induction before as [|i l IH]; intros w; cbn.
  - unfold ret. intros H. inversion H. reflexivity.
  - unfold bind. destruct (verify_sent_offer i w) as [[[]|e] w1];
      [apply IH|discriminate].
Qed.

(** X21.  Invoices that are not settled are invisible to the verifier: a
    pass over a stream does to the world what it would do if only the
    settled invoices had been delivered. *)
Theorem for_each_invoice_skips_unsettled (invoices : list Invoice.t)
    (end_ : InvoiceStream.ending) (w : W) :
  for_each_invoice invoices end_ w
  = for_each_invoice (filter Invoice.settled invoices) end_ w.
Proof.
  revert w. induction invoices as [|i l IH]; intros w; [reflexivity|].
  cbn [filter for_each_invoice]. destruct (Invoice.settled i) eqn:E.
  - cbn [for_each_invoice]. unfold bind.
    destruct (verify_sent_offer i w) as [[[]|e] w1]; [apply IH|reflexivity].
  - unfold bind, verify_sent_offer. rewrite E. unfold ret. apply IH.
Qed.

(** X22.  A pass stops at the first invoice it cannot record.  When
    [verify_sent_offer] raises for an invoice, as it does with
    [AttributeError] for a settled invoice whose offer the database does not
    have, the invoices after it are not looked at in this pass; what was
    recorded before it stays; and the pass sleeps [LND_CONNECT_RETRY_S]
    seconds and returns. *)
Theorem try_processing_stops_at_first_failure (w w1 w2 w3 : W)
    (latest : option Z) (invoice_stream : InvoiceStream.t)
    (before rest : list Invoice.t) (invoice : Invoice.t) :
  _get_latest_settle_index w = (Ok latest, w1) ->
  subscribe_invoices (or_0 latest) w1 = (Ok invoice_stream, w2) ->
  InvoiceStream.invoices invoice_stream = before ++ invoice :: rest ->
  for_each_invoice before InvoiceStream.Exhausted w2 = (Ok tt, w3) ->
  (forall e w4,
     verify_sent_offer invoice w3 = (Raise e, w4) ->
     try_processing w = (Ok tt, time_sleep LND_CONNECT_RETRY_S w4)) /\
  (forall w4,
     Invoice.settled invoice = true ->
     get_sent_offer_by_preimage_hash (hex (Invoice.r_hash invoice)) w3
     = (Ok None, w4) ->
     try_processing w = (Ok tt, time_sleep LND_CONNECT_RETRY_S w4)).
Proof.
  intros Hl Hs Hi Hb.
  assert (Hgen : forall e w4,
             verify_sent_offer invoice w3 = (Raise e, w4) ->
             try_processing w = (Ok tt, time_sleep LND_CONNECT_RETRY_S w4)).
  { intros e w4 Hv. unfold try_processing, try_except. unfold bind at 1.
    rewrite Hl. unfold bind at 1. rewrite Hs, Hi.
    rewrite (for_each_invoice_app _ _ _ _ _ Hb).
    cbn [for_each_invoice]. unfold bind. rewrite Hv. reflexivity. }
  split; [exact Hgen|].
  intros w4 Hset Hrow. apply (Hgen AttributeError).
  unfold verify_sent_offer, _record_payment, bind, raise.
  rewrite Hset, Hrow. reflexivity.
Qed.


End VerifierMore.

(* ================================================================== *)
(** * The admin web app *)

Section AdminWebAppFacts.
Import AdminWebApp.

(** X24.  [handle_request] turns every failure of the handler, and of the
    serialization of its reply, into the answer [(str(e), 500)], in the world
    the failure left; it raises only when the request body does not parse,
    and then the handler has not been called. *)
Theorem handle_request_reports_errors {W : Type} (Request Reply : Type)
    (ParseFromString : bytes -> result Request)
    (SerializeToString : Reply -> result bytes) (str : exn -> string)
    (data : bytes) (handle_rpc_request : Request -> M W Reply) (w : W) :
  let run :=
    handle_request Request Reply ParseFromString SerializeToString str data
      handle_rpc_request w in
  (forall e, ParseFromString data = Raise e -> run = (Raise e, w)) /\
  (forall request_message,
     ParseFromString data = Ok request_message ->
     (forall e w',
        handle_rpc_request request_message w = (Raise e, w') ->
        run = (Ok (Text (str e) 500), w')) /\
     (forall reply w' e,
        handle_rpc_request request_message w = (Ok reply, w') ->
        SerializeToString reply = Raise e ->
        run = (Ok (Text (str e) 500), w')) /\
     (forall reply w' serialized,
        handle_rpc_request request_message w = (Ok reply, w') ->
        SerializeToString reply = Ok serialized ->
        run = (Ok (Body serialized), w')) /\
     exists answer w', run = (Ok answer, w')).
Proof.
  intros run. subst run. unfold handle_request, bind, lift, try_catch, ret.
  split.
  - intros e ->. reflexivity.
  - intros req ->. split; [|split; [|split]].
    + intros e w' ->. reflexivity.
    + intros reply w' e -> ->. reflexivity.
    + intros reply w' b -> ->. reflexivity.
    + destruct (handle_rpc_request req w) as [[reply|e] w']; [|eauto].
      destruct (SerializeToString reply); eauto.
Qed.

(** X25.  The view [login] hands a user to [login_user] only when nobody is
    logged in yet, a form was submitted, its username is a known user and
    [check_password] accepts its password for that user; the remember flag
    is the form's. *)
Theorem login_checks_password (User : Type)
    (get_user_by_username : string -> option User)
    (check_password : User -> string -> bool)
    (is_authenticated : bool) (submitted : option form) (user : User)
    (remember : bool) :
  login User get_user_by_username check_password is_authenticated submitted
  = RedirectIndex User (Some (user, remember)) <->
  is_authenticated = false /\
  exists f,
    submitted = Some f /\
    get_user_by_username (username f) = Some user /\
    check_password user (password f) = true /\
    remember_me f = remember.
Proof.
  unfold login. split.
  - destruct is_authenticated; [discriminate|].
    destruct submitted as [f|]; [|discriminate].
    destruct (get_user_by_username (username f)) as [u|] eqn:Eu;
      [|discriminate].
    destruct (check_password u (password f)) eqn:Ec; cbn [negb];
      [|discriminate].
    intros H. inversion H; subst. split; [reflexivity|].
    exists f. rewrite Eu. auto.
  - intros (-> & f & -> & Hu & Hc & <-). rewrite Hu, Hc. reflexivity.
Qed.



End AdminWebAppFacts.

(* ================================================================== *)
(** * More scenarios, run *)

Section MoreScenarios.
Import Scenario.

(** A node that lists an IPv4 address first. *)
Lemma first_uri_scenario :
  SqueakCore.get_lnd_external_address core_world
  = (Ok (Some (LightningAddressHostPort.mk "10.0.0.1" 9735)),
     logged "get_info" core_world) /\
  exists offer,
    SqueakCore.package_offer sale_sent_offer None core_world
    = (Ok offer, logged "get_info" core_world) /\
    Offer.host offer = "10.0.0.1"%string /\ Offer.port offer = 9735.
Proof.
  apply (external_address_of_first_uri (py := py)
           (lightning_client := lightning_client)
           "02ab" "10.0.0.1" "9735" 9735 ["junk"%string] sale_sent_offer
           core_world (logged "get_info" core_world)
           (GetInfoResponse.mk ["02ab@10.0.0.1:9735"; "junk"]%string));
    reflexivity.
Defined.

(** A node that lists an IPv6 address first. *)
Lemma ipv6_uri_scenario :
  SqueakCore.get_lnd_external_address ipv6_world
  = (Raise ValueError, logged "get_info" ipv6_world) /\
  SqueakCore.package_offer sale_sent_offer None ipv6_world
  = (Raise ValueError, logged "get_info" ipv6_world).
Proof.
  apply (external_address_malformed_uri (py := py)
           (lightning_client := lightning_client)
           "02ab@[::1]:9735" [] sale_sent_offer ipv6_world
           (logged "get_info" ipv6_world)
           (GetInfoResponse.mk ["02ab@[::1]:9735"%string]));
    try reflexivity.
  right. exists "02ab"%string, "[::1]:9735"%string.
  repeat split; try reflexivity. cbn. discriminate.
Defined.

(** Scenario 1, the seller's step. *)
Lemma create_offer_scenario :
  SqueakCore.create_offer the_squeak (scalar x01) buyer_address 1000
    (empty false) = (Ok sale_sent_offer, w_created).
Proof.
  apply (proj2 (proj2 (create_offer_failure_modes (lib := lib) (rt := rt)
           (lightning_client := lightning_client)
           the_squeak (scalar x01) buyer_address 1000 (empty false)
           (with_tweaks [] (empty false)) (scalar x02) eq_refl))
           (AddInvoiceResponse.mk (digest (scalar x03))
              (request_of (scalar x03)))
           (logged "add_invoice"
              (with_ledger [(scalar x03, 1000)]
                 (with_tweaks [] (empty false))))
           (Invoice.mk (digest (scalar x03)) 1 3600 false 0) w_created);
    vm_compute; reflexivity.
Defined.

(** Scenario 1, from the seller's offer to the buyer's. *)
Lemma offer_round_trip_scenario :
  ReceivedOffer.squeak_hash sale_received_offer
  = SentOffer.squeak_hash sale_sent_offer /\
  ReceivedOffer.nonce sale_received_offer = SentOffer.nonce sale_sent_offer /\
  ReceivedOffer.payment_request sale_received_offer
  = SentOffer.payment_request sale_sent_offer /\
  ReceivedOffer.payment_point sale_received_offer = paymentPoint the_squeak /\
  ReceivedOffer.peer_address sale_received_offer = seller_address /\
  (forall pay_req,
     decode_pay_req (SentOffer.payment_request sale_sent_offer) w_packaged
     = (Ok pay_req, w_unpacked) ->
     PayReq.payment_hash pay_req
     = hex (SentOffer.payment_hash sale_sent_offer) ->
     ReceivedOffer.payment_hash sale_received_offer
     = SentOffer.payment_hash sale_sent_offer).
Proof.
  apply (offer_round_trip (lib := lib) (py := py)
           lightning_client lightning_client the_squeak sale_sent_offer None w_created w_packaged sale_offer
           seller_address w_packaged w_unpacked sale_received_offer);
    vm_compute; reflexivity.
Defined.

(** Scenario 1, the payment: valid, and filed under the squeak. *)
Lemma valid_payment_scenario :
  (SentPayment.valid sale_sent_payment = true <->
   payment_point_bytes_from_scalar_bytes
     (SentPayment.secret_key sale_sent_payment) = paymentPoint the_squeak) /\
  SentPayment.squeak_hash sale_sent_payment = get_hash the_squeak /\
  SentPayment.peer_address sale_sent_payment = seller_address /\
  SentPayment.sent_payment_id sale_sent_payment = None /\
  SentPayment.created_time_ms sale_sent_payment = None.
Proof.
  apply (sent_payment_valid_sound (lib := lib)
           (lightning_client := lightning_client)
           the_squeak sale_offer seller_address w_packaged w_unpacked
           w_unpacked w_paid sale_received_offer sale_sent_payment);
    vm_compute; reflexivity.
Defined.

(** A squeak anchored in the chain's block, and one that is not. *)
Lemma block_header_scenario :
  SqueakCore.get_block_header stale_squeak (empty false)
  = (Raise (OtherError "Block hash incorrect."),
     logged "get_block_info_by_height" (empty false)) /\
  SqueakCore.get_block_header the_squeak (empty false)
  = (Ok [], logged "get_block_info_by_height" (empty false)).
Proof.
  split.
  - apply (get_block_header_checks_hash (lib := lib) (chain := chain)
             (anchor := anchor) stale_squeak (empty false)
             (logged "get_block_info_by_height" (empty false)) block_0
             eq_refl).
    vm_compute. discriminate.
  - apply (get_block_header_checks_hash (lib := lib) (chain := chain)
             (anchor := anchor) the_squeak (empty false)
             (logged "get_block_info_by_height" (empty false)) block_0
             eq_refl).
    reflexivity.
Defined.

(** Settle indices 43 and 45 come out in that order. *)
Lemma increasing_scenario :
  StronglySorted Z.lt
    (map ReceivedPayment.settle_index
       (fst (SqueakCore.consume 5
               (SqueakCore.Suspended lookup
                  [settled_invoice 43; open_invoice 44; settled_invoice 45]
                  InvoiceStream.Exhausted)))).
Proof.
  apply (received_payments_settle_index_increasing lookup
           [settled_invoice 43; open_invoice 44; settled_invoice 45]
           InvoiceStream.Exhausted 5).
  repeat constructor.
Defined.

(** A lookup that knows only the settled invoice does as well. *)
Lemma lookup_scenario :
  SqueakCore.consume 5
    (SqueakCore.Suspended lookup
       [settled_invoice 43; Invoice.mk [x0f] 0 3600 false 44]
       InvoiceStream.Exhausted)
  = SqueakCore.consume 5
      (SqueakCore.Suspended
         (fun h => if bytes_eqb h [x0a] then lookup h else lookup [])
         [settled_invoice 43; Invoice.mk [x0f] 0 3600 false 44]
         InvoiceStream.Exhausted).
Proof.
  apply (received_payments_lookup_only_settled lookup
           (fun h => if bytes_eqb h [x0a] then lookup h else lookup [])).
  intros invoice [<-|[<-|[]]] Hs; [reflexivity|discriminate Hs].
Defined.

(** Two steps into the broken stream of scenario 5. *)
Lemma lazy_scenario :
  SqueakCore.consume 2
    (SqueakCore.Suspended lookup (InvoiceStream.invoices broken_stream)
       (InvoiceStream.end_ broken_stream))
  = (map (SqueakCore.received_payment lookup)
       [settled_invoice 43; settled_invoice 44], None).
Proof.
  apply (received_payments_are_lazy lookup
           (InvoiceStream.invoices broken_stream)
           (InvoiceStream.end_ broken_stream) 2).
  cbn. lia.
Defined.

(** A stream that breaks with a [ValueError]. *)
Lemma value_error_scenario :
  SqueakCore.consume 5
    (SqueakCore.Suspended lookup (InvoiceStream.invoices broken_stream)
       (InvoiceStream.Failed ValueError))
  = (map (SqueakCore.received_payment lookup)
       [settled_invoice 43; settled_invoice 44; settled_invoice 45],
     Some (SqueakCore.Thrown ValueError)).
Proof.
  apply (received_payments_other_errors_pass lookup
           (InvoiceStream.invoices broken_stream) ValueError 5).
  - discriminate.
  - cbn. lia.
Defined.

(** Scenario 4, the first connection. *)
Lemma get_peer_after_add_scenario :
  ConnectionManager.get_peer
    (snd (ConnectionManager.add_peer outbound ConnectionManager.init))
    (Peer.address outbound) = Some outbound /\
  forall address,
    address <> Peer.address outbound ->
    ConnectionManager.get_peer
      (snd (ConnectionManager.add_peer outbound ConnectionManager.init))
      address
    = ConnectionManager.get_peer ConnectionManager.init address.
Proof.
  apply (get_peer_after_add_peer outbound ConnectionManager.init).
  reflexivity.
Defined.

Lemma get_peer_after_remove_scenario :
  ConnectionManager.get_peer
    (snd (ConnectionManager.remove_peer outbound connected))
    (Peer.address outbound) = None /\
  forall address,
    address <> Peer.address outbound ->
    ConnectionManager.get_peer
      (snd (ConnectionManager.remove_peer outbound connected)) address
    = ConnectionManager.get_peer connected address.
Proof.
  apply (get_peer_after_remove_peer outbound connected).
  - repeat constructor. intros [].
  - reflexivity.
Defined.

Lemma add_then_remove_scenario :
  ConnectionManager.remove_peer outbound
    (snd (ConnectionManager.add_peer outbound ConnectionManager.init))
  = (Ok tt, ConnectionManager.init).
Proof.
  apply (add_then_remove_peer outbound ConnectionManager.init).
  reflexivity.
Defined.

Lemma keyed_by_address_scenario : Peer.address outbound = seller_address.
Proof.
  apply (get_peer_keyed_by_address
           [ConnectionManager.AddPeer inbound;
            ConnectionManager.RemovePeer inbound;
            ConnectionManager.AddPeer outbound]
           seller_address outbound).
  reflexivity.
Defined.

(** The new peer is closed last. *)
Lemma stop_all_scenario :
  ConnectionManager.stop_all_connections
    (snd (ConnectionManager.add_peer late_outbound connected)) (empty false)
  = bind (ConnectionManager.stop_all_connections connected)
      (fun _ => close late_outbound) (empty false).
Proof.
  apply (stop_all_connections_after_add_peer (connection := connection)
           late_outbound connected (empty false)).
  reflexivity.
Defined.

(** The verifier meets an invoice it has no offer for: 43 is recorded, 44 is
    not, and the pass sleeps. *)
Lemma missing_offer_scenario :
  fst (SentOffersVerifier.try_processing gap_world) = Ok tt /\
  slept (snd (SentOffersVerifier.try_processing gap_world)) = 10 /\
  map ServerReceivedPayment.settle_index
    (stored (snd (SentOffersVerifier.try_processing gap_world))) = [42; 43].
Proof.
  pose proof
    (proj2 (try_processing_stops_at_first_failure (rt := rt)
              (squeak_db := squeak_db) (lightning_client := lightning_client)
              gap_world gap_world
              (logged "subscribe_invoices" (with_streams [] gap_world))
              (with_stored
                 (stored gap_world
                  ++ [ServerReceivedPayment.mk None None (scalar x0c) "0a"
                        1000 43])
                 (logged "subscribe_invoices" (with_streams [] gap_world)))
              (Some 42) gap_stream [settled_invoice 43] [settled_invoice 44]
              unknown_invoice eq_refl eq_refl eq_refl eq_refl)
       _ eq_refl eq_refl) as H.
  rewrite H. repeat split.
Defined.

End MoreScenarios.
